(** * skip: the SCION address-munging HTTP proxy (skip/main.go)

    A shallow embedding of [demunge], [replaceMunged], [copyAndReplaceHeader],
    [copyAndReplace] and [proxyHandler.ServeHTTP], together with the parts of
    Go's [strings], [regexp] and [net/http] packages they call.

    Conventions.
    - A Go [string] / [[]byte] is a sequence of bytes: Rocq's [string], whose
      characters are the 8-bit [ascii].  Slicing [s[a:b]] is
      [Bytes.slice a b s].
    - [regexp] is modelled by a backtracking matcher with the leftmost-first
      (Perl-like) priorities that Go's engine implements.  It reads bytes;
      on the patterns of this program, whose literals and classes are ASCII
      whenever the host is, this is what Go's rune-based engine computes.
      Where Go steps over a rune (the names in a replacement template, the
      step after an empty match) the model steps over a byte.  Compiling a
      pattern is modelled by its syntax tree.
    - [http.Header] is [gmap string (list string)]; ranging over a Go map
      visits the entries in an unspecified order, so the iteration order is
      an explicit argument.
    - The transport ([http.RoundTripper]) is a function from the request to
      a response or an error; the handler threads the [ResponseWriter], the
      log of transport calls and standard output through a world record.

    From webapp/lib/config.go the file embeds [StringInSlice], the ordering
    [byPrefInterface] of network interfaces and [GenServerNodeDefaults].
    - [sort.Sort] leaves the slice in an arrangement that is sorted for
      [Less]; for strings this arrangement is unique and merge sort
      computes it.
    - A write to the file system is recorded as an event. *)

From Stdlib Require Import Strings.String Strings.Ascii Arith.PeanoNat ZArith Lia.
From stdpp Require Import base option list strings gmap fin_maps sorting pretty.

Open Scope string_scope.
Open Scope nat_scope.

#[local] Arguments String.append !_ _ : simpl nomatch.

(** ** Byte strings *)

Module Bytes.

Fixpoint take (n : nat) (s : string) : string :=
  match n, s with
  | S n', String c s' => String c (take n' s')
  | _, _ => ""
  end.

Fixpoint drop (n : nat) (s : string) : string :=
  match n, s with
  | S n', String _ s' => drop n' s'
  | _, _ => s
  end.

(** Go's [s[a:b]]. *)
Definition slice (a b : nat) (s : string) : string := take (b - a) (drop a s).

Fixpoint all (p : ascii → bool) (s : string) : bool :=
  match s with
  | "" => true
  | String c s' => p c && all p s'
  end.

Fixpoint mem (c : ascii) (s : string) : bool :=
  match s with
  | "" => false
  | String x s' => Ascii.eqb x c || mem c s'
  end.

Fixpoint map (f : ascii → ascii) (s : string) : string :=
  match s with
  | "" => ""
  | String c s' => String (f c) (map f s')
  end.

(** the line feed *)
Definition LF : string := String (ascii_of_nat 10) "".

(** the longest prefix whose bytes satisfy [p], and what follows it *)
Fixpoint span (p : ascii → bool) (s : string) : string * string :=
  match s with
  | String c s' =>
      if p c then let '(a, b) := span p s' in (String c a, b) else ("", s)
  | "" => ("", "")
  end.

End Bytes.

(** ** package strings *)

Module strings.

(** [strings.HasPrefix(s, prefix)] *)
Fixpoint HasPrefix (s pre : string) : bool :=
  match pre, s with
  | "", _ => true
  | String p pre', String c s' => Ascii.eqb c p && HasPrefix s' pre'
  | String _ _, "" => false
  end.

(** [strings.HasSuffix(s, suffix)]:
    [len(s) >= len(suffix) && s[len(s)-len(suffix):] == suffix] *)
Definition HasSuffix (s suf : string) : bool :=
  (String.length suf <=? String.length s)
  && String.eqb (Bytes.drop (String.length s - String.length suf) s) suf.

(** [strings.TrimSuffix(s, suffix)]:
    [if HasSuffix(s, suffix) { return s[:len(s)-len(suffix)] }; return s] *)
Definition TrimSuffix (s suf : string) : string :=
  if HasSuffix s suf then Bytes.take (String.length s - String.length suf) s else s.

(** [strings.ReplaceAll(s, old, new)] for a non-empty [old]: the
    non-overlapping occurrences of [old], found from the left, are
    replaced by [new].  [skip] counts the bytes of the occurrence just
    replaced that are still to be dropped.  (With an empty [old] Go
    inserts [new] around every rune; the program never does that, and the
    model then returns [s].) *)
Fixpoint replace_from (skip : nat) (s old new : string) : string :=
  match s with
  | "" => ""
  | String c s' =>
      match skip with
      | S n => replace_from n s' old new
      | O =>
          match old with
          | "" => String c (replace_from 0 s' old new)
          | String _ old' =>
              if HasPrefix s old
              then new +:+ replace_from (String.length old') s' old new
              else String c (replace_from 0 s' old new)
          end
      end
  end.

Definition ReplaceAll (s old new : string) : string := replace_from 0 s old new.

End strings.

(** ** package regexp *)

Module regexp.

(** Abstract syntax of the patterns, as [regexp/syntax] parses them. *)
Inductive regex : Type :=
| Eps                          (* the empty pattern *)
| Chr (c : ascii)              (* a literal byte *)
| Cls (p : ascii → bool)       (* a character class, [.] included *)
| Cat (r1 r2 : regex)          (* r1r2 *)
| Alt (r1 r2 : regex)          (* r1|r2, r1 preferred *)
| Star (r : regex)             (* r*, greedy *)
| Cap (i : nat) (r : regex)    (* the i-th capturing group (r) *)
| Bol                          (* ^ without flag m: start of text *)
| Eol.                         (* $ without flag m: end of text *)

(** r+ and r? (both greedy) *)
Definition Plus (r : regex) : regex := Cat r (Star r).
Definition Quest (r : regex) : regex := Alt r Eps.

(** a literal string, as [regexp.QuoteMeta] makes one *)
Fixpoint Lit (s : string) : regex :=
  match s with
  | "" => Eps
  | String c s' => Cat (Chr c) (Lit s')
  end.

(** A compiled pattern: its syntax and its number of capturing groups. *)
Record Regexp := { expr : regex; numSubexp : nat }.

(** A position in the text: the offset and the bytes from there on. *)
Record cursor := { pos : nat; rest : string }.

Definition advance (cu : cursor) (s' : string) : cursor :=
  {| pos := S (pos cu); rest := s' |}.

(** Submatch positions: entry [i] is [Some (a, b)] when group [i] matched
    [text[a:b]] (Go stores the pair [-1, -1] for [None]). *)
Definition submatches := list (option (nat * nat)).

(** The backtracking matcher: [run r cu cs k] matches [r] at [cu] and
    hands the new position to the continuation [k]; when [k] fails, the
    next alternative in priority order is tried.  An iteration of [r*]
    that consumes nothing ends the loop. *)
Fixpoint run (r : regex) (cu : cursor) (cs : submatches)
    (k : cursor → submatches → option submatches) : option submatches :=
  match r with
  | Eps => k cu cs
  | Chr c =>
      match rest cu with
      | String x s' => if Ascii.eqb x c then k (advance cu s') cs else None
      | "" => None
      end
  | Cls p =>
      match rest cu with
      | String x s' => if p x then k (advance cu s') cs else None
      | "" => None
      end
  | Cat r1 r2 => run r1 cu cs (λ cu' cs', run r2 cu' cs' k)
  | Alt r1 r2 =>
      match run r1 cu cs k with
      | Some m => Some m
      | None => run r2 cu cs k
      end
  | Star r1 =>
      (fix loop (fuel : nat) (cu : cursor) (cs : submatches) : option submatches :=
         match fuel with
         | O => k cu cs
         | S fuel' =>
             match run r1 cu cs
                     (λ cu' cs', if pos cu <? pos cu' then loop fuel' cu' cs' else None) with
             | Some m => Some m
             | None => k cu cs
             end
         end) (String.length (rest cu)) cu cs
  | Cap i r1 => run r1 cu cs (λ cu' cs', k cu' (<[i := Some (pos cu, pos cu')]> cs'))
  | Bol => if pos cu =? 0 then k cu cs else None
  | Eol => match rest cu with "" => k cu cs | String _ _ => None end
  end.

(** A match that starts exactly at the cursor; group 0 is the whole match. *)
Definition match_here (re : Regexp) (cu : cursor) : option submatches :=
  run (Cap 0 (expr re)) cu (replicate (S (numSubexp re)) None) (λ _ cs, Some cs).

(** The leftmost match that starts at the cursor or later. *)
Fixpoint search (re : Regexp) (p : nat) (s : string) : option submatches :=
  match match_here re {| pos := p; rest := s |} with
  | Some m => Some m
  | None =>
      match s with
      | "" => None
      | String _ s' => search re (S p) s'
      end
  end.

(** [re.doExecute]: the leftmost match in [src] that starts at offset
    [from] or later. *)
Definition doExecute (re : Regexp) (src : string) (from : nat) : option submatches :=
  search re from (Bytes.drop from src).

(** the text of a submatch; an unmatched group yields the empty string *)
Definition group_text (src : string) (g : option (nat * nat)) : string :=
  match g with
  | Some (a, b) => Bytes.slice a b src
  | None => ""
  end.

(** [re.FindStringSubmatch(s)]: [None] is Go's nil. *)
Definition FindStringSubmatch (re : Regexp) (s : string) : option (list string) :=
  match doExecute re s 0 with
  | Some m => Some (map (group_text s) m)
  | None => None
  end.

(** *** Replacement templates ([Regexp.expand]) *)

Definition is_ascii_digit (c : ascii) : bool :=
  let n := nat_of_ascii c in (48 <=? n) && (n <=? 57).

(** the characters of a group name: letters, digits and the underscore
    (the ASCII ones; Go asks the Unicode tables about longer runes) *)
Definition is_name_char (c : ascii) : bool :=
  let n := nat_of_ascii c in
  is_ascii_digit c || ((65 <=? n) && (n <=? 90)) || ((97 <=? n) && (n <=? 122))
  || (n =? 95).

(** [strings.Cut(s, sep)] for a one-byte separator *)
Fixpoint cut (sep : ascii) (s : string) : option (string * string) :=
  match s with
  | "" => None
  | String c s' =>
      if Ascii.eqb c sep then Some ("", s')
      else match cut sep s' with
           | Some (before, after) => Some (String c before, after)
           | None => None
           end
  end.

(** the number a name denotes; [None] is Go's [-1]: a character that is
    not a digit, a value of 1e8 or more before the next digit, or a
    leading zero *)
Fixpoint parse_num (acc : N) (name : string) : option N :=
  match name with
  | "" => Some acc
  | String c name' =>
      if negb (is_ascii_digit c) || (100000000 <=? acc)%N then None
      else parse_num (acc * 10 + (N_of_ascii c - 48))%N name'
  end.

Definition group_number (name : string) : option N :=
  match name with
  | String "0" (String _ _) => None
  | _ => parse_num 0 name
  end.

(** [extract(str)]: the name at the head of [str], written [name] or
    [{name}], its number and the rest; [None] when [ok] is false. *)
Definition extract (str : string) : option (string * option N * string) :=
  let '(brace, str1) :=
    match str with
    | String "{" s' => (true, s')
    | _ => (false, str)
    end in
  let '(name, after) := Bytes.span is_name_char str1 in
  match name with
  | "" => None
  | String _ _ =>
      if brace : bool then
        match after with
        | String "}" after' => Some (name, group_number name, after')
        | _ => None
        end
      else Some (name, group_number name, after)
  end.

(** [re.expand(dst, template, src, match)], returning what is appended to
    [dst].  Every turn of the loop removes a dollar sign from the
    template, so its length bounds the number of turns.  The patterns
    here have no named groups: a name that is not a number expands to
    nothing. *)
Fixpoint expand_loop (fuel : nat) (template src : string) (m : submatches) : string :=
  match fuel with
  | O => template
  | S fuel' =>
      match cut "$" template with
      | None => template
      | Some (before, after) =>
          before +:+
          match after with
          | String "$" after' => String "$" (expand_loop fuel' after' src m)
          | _ =>
              match extract after with
              | None => String "$" (expand_loop fuel' after src m)
              | Some (_, Some num, rest) =>
                  match m !! N.to_nat num with
                  | Some g => group_text src g
                  | None => ""
                  end +:+ expand_loop fuel' rest src m
              | Some (_, None, rest) => expand_loop fuel' rest src m
              end
          end
      end
  end.

Definition expand (template src : string) (m : submatches) : string :=
  expand_loop (String.length template) template src m.

(** *** [Regexp.ReplaceAll] *)

(** The loop of [re.replaceAll]: [lastMatchEnd] is the end of the most
    recent match and [searchPos] the offset where the next match is
    looked for.  [searchPos] grows at every turn; the loop ends when it
    passes the end of [src] or no match is left. *)
Fixpoint replaceAll_loop (fuel : nat) (re : Regexp) (src : string)
    (repl : submatches → string) (lastMatchEnd searchPos : nat) (buf : string) : string :=
  match fuel with
  | O => buf +:+ Bytes.drop lastMatchEnd src
  | S fuel' =>
      if String.length src <? searchPos then buf +:+ Bytes.drop lastMatchEnd src
      else
        match doExecute re src searchPos with
        | Some ((Some (a0, a1) :: _) as a) =>
            (* copy the unmatched characters before this match *)
            let buf := buf +:+ Bytes.slice lastMatchEnd a0 src in
            (* insert the replacement, but not for an empty match right
               after another match *)
            let buf := if (lastMatchEnd <? a1) || (a0 =? 0) then buf +:+ repl a else buf in
            (* advance past this match, by one character at least *)
            let width := if searchPos <? String.length src then 1 else 0 in
            let searchPos' :=
              if a1 <? searchPos + width then searchPos + width
              else if a1 <? searchPos + 1 then searchPos + 1
              else a1 in
            replaceAll_loop fuel' re src repl a1 searchPos' buf
        | _ => buf +:+ Bytes.drop lastMatchEnd src
        end
  end.

(** [re.ReplaceAll(src, repl)]: dollar signs in [repl] are interpreted
    as in [Expand]. *)
Definition ReplaceAll (re : Regexp) (src repl : string) : string :=
  replaceAll_loop (String.length src + 2) re src (expand repl src) 0 0 "".

End regexp.

Import regexp.

(** ** skip/main.go: the address codec *)

Definition is_digit (c : ascii) : bool :=
  let n := nat_of_ascii c in (48 <=? n) && (n <=? 57).

(** the class [[_\dA-Fa-f]] *)
Definition is_hex_or_underscore (c : ascii) : bool :=
  let n := nat_of_ascii c in
  (n =? 95) || is_digit c || ((65 <=? n) && (n <=? 70)) || ((97 <=? n) && (n <=? 102)).

(** [.] without flag s: any character but the line feed *)
Definition not_newline (c : ascii) : bool := negb (nat_of_ascii c =? 10).

(** [mungedScionAddr]: the compiled pattern [^(\d+)-([_\dA-Fa-f]+)-(REST)$],
    where REST is a dot followed by a star: three groups between the
    anchors, separated by hyphens. *)
Definition mungedScionAddr : Regexp :=
  {| expr :=
       Cat Bol
        (Cat (Cap 1 (Plus (Cls is_digit)))
          (Cat (Chr "-")
            (Cat (Cap 2 (Plus (Cls is_hex_or_underscore)))
              (Cat (Chr "-")
                (Cat (Cap 3 (Star (Cls not_newline))) Eol)))));
     numSubexp := 3 |}.

Definition mungedScionAddrIAIndex : nat := 1.
Definition mungedScionAddrASIndex : nat := 2.
Definition mungedScionAddrHostIndex : nat := 3.

(** [parts[i]]; the slice returned for [mungedScionAddr] has four entries
    (lemma [FindStringSubmatch_munged]), so the indices used are in range. *)
Definition index (parts : list string) (i : nat) : string := nth i parts "".

(** [demunge] reverts the host name to a proper SCION address. *)
Definition demunge (host : string) : string :=
  match FindStringSubmatch mungedScionAddr host with
  | Some parts =>
      (* fmt.Sprintf("[%s-%s,%s]", ...) *)
      "[" ++ index parts mungedScionAddrIAIndex
          ++ "-" ++ strings.ReplaceAll (index parts mungedScionAddrASIndex) "_" ":"
          ++ "," ++ index parts mungedScionAddrHostIndex ++ "]"
  | None => strings.TrimSuffix host ".scion"
  end.

(** ** package net/http *)

Module http.

(** [http.Header]: [map[string][]string]. *)
Abbreviation Header := (gmap string (list string)).

(** the bytes of an HTTP token ([validHeaderFieldByte]) *)
Definition validHeaderFieldByte (c : ascii) : bool :=
  let n := nat_of_ascii c in
  ((48 <=? n) && (n <=? 57)) || ((65 <=? n) && (n <=? 90)) || ((97 <=? n) && (n <=? 122))
  || Bytes.mem c "!#$%&'*+-.^_`|~".

Definition is_lower (c : ascii) : bool :=
  let n := nat_of_ascii c in (97 <=? n) && (n <=? 122).
Definition is_upper (c : ascii) : bool :=
  let n := nat_of_ascii c in (65 <=? n) && (n <=? 90).

(** the second loop of [canonicalMIMEHeaderKey]: upper case for the first
    letter and after each hyphen, lower case elsewhere *)
Fixpoint canonicalize (upper : bool) (a : string) : string :=
  match a with
  | "" => ""
  | String c a' =>
      let c' :=
        if upper && is_lower c then ascii_of_nat (nat_of_ascii c - 32)
        else if negb upper && is_upper c then ascii_of_nat (nat_of_ascii c + 32)
        else c in
      String c' (canonicalize (Ascii.eqb c' "-") a')
  end.

(** [http.CanonicalHeaderKey(s)]: a key with a byte that is not a token
    byte is returned as it is. *)
Definition CanonicalHeaderKey (s : string) : string :=
  if Bytes.all validHeaderFieldByte s then canonicalize true s else s.

(** [h[key]]: the nil slice for a missing key *)
Definition values (h : Header) (key : string) : list string := default [] (h !! key).

(** [h.Add(key, value)] *)
Definition Add (h : Header) (key value : string) : Header :=
  let key := CanonicalHeaderKey key in
  <[key := (values h key ++ [value])%list]> h.

(** [h.Set(key, value)] *)
Definition Set_ (h : Header) (key value : string) : Header :=
  <[CanonicalHeaderKey key := [value]]> h.

(** [h.Get(key)]: the first value of the key, or the empty string *)
Definition Get (h : Header) (key : string) : string :=
  match values h (CanonicalHeaderKey key) with
  | v :: _ => v
  | [] => ""
  end.

(** [h.Del(key)] *)
Definition Del (h : Header) (key : string) : Header :=
  delete (CanonicalHeaderKey key) h.

Record URL := { Scheme : string; URLHost : string; Path : string; RawQuery : string }.

Record Request := {
  Method : string;
  reqURL : URL;
  Host : string;
  reqHeader : Header;
  reqBody : string }.

Record Response := {
  StatusCode : Z;
  respHeader : Header;
  respBody : string }.

(** The state of an [http.ResponseWriter]: the header map that
    [w.Header()] returns, the status line and the snapshot of the header
    map taken by the first [WriteHeader], and the body bytes written. *)
Record ResponseWriter := {
  header : Header;
  sent : option (Z * Header);
  written : string }.

Definition newResponseWriter : ResponseWriter :=
  {| header := ∅; sent := None; written := "" |}.

(** [w.WriteHeader(code)]; a second call is ignored *)
Definition WriteHeader (w : ResponseWriter) (code : Z) : ResponseWriter :=
  match sent w with
  | Some _ => w
  | None => {| header := header w; sent := Some (code, header w); written := written w |}
  end.

Definition StatusOK : Z := 200.
Definition StatusServiceUnavailable : Z := 503.

(** [w.Write(b)]; the first write sends the header with status 200 if
    [WriteHeader] has not been called *)
Definition Write (w : ResponseWriter) (b : string) : ResponseWriter :=
  let w := WriteHeader w StatusOK in
  {| header := header w; sent := sent w; written := written w +:+ b |}.

Definition setHeader (w : ResponseWriter) (h : Header) : ResponseWriter :=
  {| header := h; sent := sent w; written := written w |}.

(** [http.Error(w, error, code)]: sets the two headers, writes the status
    and prints the message with [fmt.Fprintln]. *)
Definition Error (w : ResponseWriter) (error : string) (code : Z) : ResponseWriter :=
  let w := setHeader w (Set_ (header w) "Content-Type" "text/plain; charset=utf-8") in
  let w := setHeader w (Set_ (header w) "X-Content-Type-Options" "nosniff") in
  let w := WriteHeader w code in
  Write w (error +:+ Bytes.LF).

End http.

Import http.

(** ** skip/main.go: the rewriting proxy *)

(** [http.RoundTripper]: a response, or the message of an error. *)
Record proxyHandler := { transport : Request → Response + string }.

(** [regexp.MustCompile] of [http(s)?://] followed by [regexp.QuoteMeta(host)]:
    the pattern that [replaceMunged] compiles at each call. *)
Definition reOriginal (host : string) : Regexp :=
  {| expr := Cat (Lit "http") (Cat (Quest (Cap 1 (Chr "s"))) (Cat (Lit "://") (Lit host)));
     numSubexp := 1 |}.

(** [replaceMunged] replaces http://<host> or https://<host> with
    http://<hostMunged>. *)
Definition replaceMunged (s host hostMunged : string) : string :=
  regexp.ReplaceAll (reOriginal host) s ("http://" +:+ hostMunged).

(** The order in which a [range] loop visits the entries of a header map. *)
Definition map_range := Header → list (string * list string).

(** every entry of the map is visited once *)
Definition visits_all (range : map_range) : Prop :=
  ∀ m : Header, range m ≡ₚ map_to_list m.

Definition copyAndReplaceHeader (range : map_range) (dst src : Header)
    (host hostMunged : string) : Header :=
  foldl (λ dst '(k, vv),
           foldl (λ dst v, Add dst k (replaceMunged v host hostMunged)) dst vv)
        dst (range src).

(** [body] is what [ioutil.ReadAll] reads from the reader. *)
Definition copyAndReplace (w : ResponseWriter) (body host hostMunged : string)
    : ResponseWriter :=
  let b := body in
  let b := replaceMunged b host hostMunged in
  Write w b.

(** [io.Copy(w, resp.Body)] *)
Definition Copy (w : ResponseWriter) (body : string) : ResponseWriter := Write w body.

(** What a call of the handler leaves behind: the response writer, the
    request (which the handler updates in place), the requests handed to
    the transport, the lines printed, and whether the body of the
    transport's response was closed. *)
Record world := {
  writer : ResponseWriter;
  request : Request;
  roundTrips : list Request;
  stdout : list string;
  bodyClosed : bool }.

Definition ServeHTTP (range : map_range) (h : proxyHandler)
    (w : ResponseWriter) (req : Request) : world :=
  let hostMunged := Host req in
  let host := demunge (Host req) in
  (* req.Host = host *)
  let req := {| Method := Method req; reqURL := reqURL req; Host := host;
                reqHeader := reqHeader req; reqBody := reqBody req |} in
  (* req.URL.Scheme = "https" *)
  let req := {| Method := Method req;
                reqURL := {| Scheme := "https"; URLHost := URLHost (reqURL req);
                             Path := Path (reqURL req); RawQuery := RawQuery (reqURL req) |};
                Host := Host req; reqHeader := reqHeader req; reqBody := reqBody req |} in
  (* req.URL.Host = host *)
  let req := {| Method := Method req;
                reqURL := {| Scheme := Scheme (reqURL req); URLHost := host;
                             Path := Path (reqURL req); RawQuery := RawQuery (reqURL req) |};
                Host := Host req; reqHeader := reqHeader req; reqBody := reqBody req |} in
  (* Only accept plain text so we can munge the host name in the body
     without decompressing: req.Header.Del("Accept-Encoding") *)
  let req := {| Method := Method req; reqURL := reqURL req; Host := Host req;
                reqHeader := Del (reqHeader req) "Accept-Encoding";
                reqBody := reqBody req |} in
  (* resp, err := h.transport.RoundTrip(req) *)
  match transport h req with
  | inr err =>
      {| writer := Error w err StatusServiceUnavailable;
         request := req; roundTrips := [req]; stdout := []; bodyClosed := false |}
  | inl resp =>
      (* defer resp.Body.Close() *)
      let w := setHeader w (copyAndReplaceHeader range (header w) (respHeader resp)
                              host hostMunged) in
      let w := WriteHeader w (StatusCode resp) in
      if strings.HasPrefix (Get (respHeader resp) "Content-Type") "text/html" then
        (* fmt.Println("replacing") *)
        {| writer := copyAndReplace w (respBody resp) host hostMunged;
           request := req; roundTrips := [req];
           stdout := ["replacing" +:+ Bytes.LF]; bodyClosed := true |}
      else
        {| writer := Copy w (respBody resp);
           request := req; roundTrips := [req]; stdout := []; bodyClosed := true |}
  end.

(** The handler on a fresh response writer, with the entries of a header
    map visited in the order of [map_to_list]. *)
Definition serve (h : proxyHandler) (req : Request) : world :=
  ServeHTTP map_to_list h newResponseWriter req.

(** ** Reference definitions for the statements *)

(** a leading hyphen removed *)
Definition strip_hyphen (s : string) : option string :=
  match s with
  | String c s' => if Ascii.eqb c "-" then Some s' else None
  | "" => None
  end.

(** What the pattern [mungedScionAddr] accepts, read off directly: digits,
    a hyphen, bytes of the class [[_\dA-Fa-f]], a hyphen, and a rest
    without line feed. *)
Definition parse_munged (host : string) : option (string * string * string) :=
  let '(d, r1) := Bytes.span is_digit host in
  match d, strip_hyphen r1 with
  | String _ _, Some r2 =>
      let '(e, r3) := Bytes.span is_hex_or_underscore r2 in
      match e, strip_hyphen r3 with
      | String _ _, Some h => if Bytes.all not_newline h then Some (d, e, h) else None
      | _, _ => None
      end
  | _, _ => None
  end.

(** the hexadecimal digits and the colon: the bytes of an entity ID *)
Definition is_hex_or_colon (c : ascii) : bool :=
  let n := nat_of_ascii c in
  (n =? 58) || is_digit c || ((65 <=? n) && (n <=? 70)) || ((97 <=? n) && (n <=? 102)).

(** The munged hostname of the address (D, E, H) as the specification
    writes it: D-E-H with every colon of E replaced by an underscore.  (The
    program has no encoder; it keeps the host name the client sent.) *)
Definition spec_munged (D E H : string) : string :=
  D +:+ "-" +:+ strings.ReplaceAll E ":" "_" +:+ "-" +:+ H.

(** The canonical bracketed string of the address (D, E, H). *)
Definition spec_canonical (D E H : string) : string :=
  "[" +:+ D +:+ "-" +:+ E +:+ "," +:+ H +:+ "]".

(** [host] has the structured form D-E-H of the pattern. *)
Definition structured (host : string) : Prop :=
  ∃ D E H : string,
    D ≠ "" ∧ Bytes.all is_digit D = true ∧
    E ≠ "" ∧ Bytes.all is_hex_or_underscore E = true ∧
    Bytes.all not_newline H = true ∧
    host = D +:+ "-" +:+ E +:+ "-" +:+ H.

(** [host] has the form D-E-H with any rest H, line feeds included. *)
Definition structured_any_rest (host : string) : Prop :=
  ∃ D E H : string,
    D ≠ "" ∧ Bytes.all is_digit D = true ∧
    E ≠ "" ∧ Bytes.all is_hex_or_underscore E = true ∧
    host = D +:+ "-" +:+ E +:+ "-" +:+ H.

(** [k] fails wherever the next byte is in the class [p]. *)
Definition rejects (p : ascii → bool)
    (k : cursor → submatches → option submatches) : Prop :=
  ∀ n c s cs, p c = true → k {| pos := n; rest := String c s |} cs = None.

(** the submatch positions of a structured host D-E-H *)
Definition munged_positions (d e h : string) : submatches :=
  let p1 := String.length d in
  let p2 := S p1 + String.length e in
  let p3 := S p2 + String.length h in
  [Some (0, p3); Some (0, p1); Some (S p1, p2); Some (S p2, p3)].

(** the two substitutions on the bytes of the entity segment *)
Definition colon_to_underscore (c : ascii) : ascii :=
  if Ascii.eqb c ":" then "_"%char else c.

Definition underscore_to_colon (c : ascii) : ascii :=
  if Ascii.eqb c "_" then ":"%char else c.

(** The length of the occurrence of https://host or http://host at the
    head of [s], if there is one. *)
Definition occurrence (s host : string) : option nat :=
  if strings.HasPrefix s ("https://" +:+ host)
  then Some (String.length ("https://" +:+ host))
  else if strings.HasPrefix s ("http://" +:+ host)
  then Some (String.length ("http://" +:+ host))
  else None.

(** The substitution as the specification words it: every occurrence of
    http://host or https://host, taken from the left, is replaced by
    [new]; [skip] counts the bytes of the occurrence just replaced that
    are still to be dropped. *)
Fixpoint substitute_from (skip : nat) (s host new : string) : string :=
  match s with
  | "" => ""
  | String c s' =>
      match skip with
      | S n => substitute_from n s' host new
      | O =>
          match occurrence s host with
          | Some L => new +:+ substitute_from (L - 1) s' host new
          | None => String c (substitute_from 0 s' host new)
          end
      end
  end.

(** every occurrence replaced by http://hostMunged *)
Definition substitute (s host hostMunged : string) : string :=
  substitute_from 0 s host ("http://" +:+ hostMunged).


(** The request that the handler hands to the transport. *)
Definition outbound (req : Request) : Request :=
  {| Method := Method req;
     reqURL := {| Scheme := "https"; URLHost := demunge (Host req);
                  Path := Path (reqURL req); RawQuery := RawQuery (reqURL req) |};
     Host := demunge (Host req);
     reqHeader := delete "Accept-Encoding" (reqHeader req);
     reqBody := reqBody req |}.

(** one turn of the outer loop of [copyAndReplaceHeader] *)
Definition add_values (f : string → string) (dst : Header) (k : string)
    (vv : list string) : Header :=
  foldl (λ dst v, Add dst k (f v)) dst vv.

(** every key of the map has a value *)
Definition no_empty (h : Header) : Prop := ∀ k vv, h !! k = Some vv → vv ≠ [].

(** the outer loop over the entries in the order visited *)
Definition copy_entries (f : string → string) (dst : Header)
    (entries : list (string * list string)) : Header :=
  foldl (λ dst '(k, vv), add_values f dst k vv) dst entries.

(** the keys of the header map are in canonical form *)
Definition canonical_keys (h : Header) : Prop :=
  map_Forall (λ k _, CanonicalHeaderKey k = k) h.

(** *** Sample transports, requests and responses *)

(** a transport that answers every request with [resp] *)
Definition upstream (resp : Response) : proxyHandler := {| transport := λ _, inl resp |}.

(** a GET request for / as a browser sends it to the proxy *)
Definition get (host : string) : Request :=
  {| Method := "GET";
     reqURL := {| Scheme := "http"; URLHost := host; Path := "/"; RawQuery := "" |};
     Host := host;
     reqHeader := {[ "Accept" := ["*/*"]; "Accept-Encoding" := ["gzip"] ]};
     reqBody := "" |}.



Definition html_link : Response :=
  {| StatusCode := 200; respHeader := {[ "Content-Type" := ["text/html; charset=utf-8"] ]};
     respBody := "<a href='https://[1-ff00:0:110,192.0.2.1]/x'>x</a>" |}.

Definition redirect : Response :=
  {| StatusCode := 302;
     respHeader := {[ "Location" := ["https://[1-ff00:0:110,192.0.2.1]/path"];
                      "Set-Cookie" := ["a=1"; "b=2"] ]};
     respBody := "" |}.

Definition lower_case_key : Response :=
  {| StatusCode := 200; respHeader := {[ "x-request-id" := ["7"] ]}; respBody := "" |}.

Definition dollar_redirect : Response :=
  {| StatusCode := 302; respHeader := {[ "Location" := ["https://x$1/path"] ]};
     respBody := "" |}.




(** ** package strconv, package net, package sort *)

Module strconv.

(** [strconv.Itoa(i)]: the decimal representation *)
Definition Itoa (i : Z) : string := pretty i.

End strconv.

Module net.

(** [net.Interface] *)
Record Interface := {
  Index : Z;
  MTU : Z;
  Name : string;
  HardwareAddr : string;
  Flags : N }.

End net.

Module sort.

(** Go's [a < b] on strings: the order of the bytes, a proper prefix
    first. *)
Definition string_lt (a b : string) : bool := String.ltb a b.

(** [sort.Reverse(sort.StringSlice(x)).Less(i, j)] is [x[j] < x[i]]: after
    [sort.Sort] no element is smaller than a later one. *)
Definition descending : relation string := λ a b, String.le b a.

(** [sort.Sort(sort.Reverse(sort.StringSlice(x)))] *)
Definition SortReverseStrings (x : list string) : list string :=
  merge_sort descending x.

End sort.

(** ** webapp/lib/config.go *)

Module lib.

Definition serPortDef : Z := 30100.
Definition serDefAddr : string := "127.0.0.2".
Definition cfgFileSerUser : string := "config/servers_user.json".

Record CmdOptions := {
  Addr : string;
  Port : Z;
  StaticRoot : string;
  BrowseRoot : string;
  AppsRoot : string;
  ScionBin : string;
  ScionGen : string;
  ScionGenCache : string;
  ScionLogs : string }.

(** [StringInSlice] can check a slice for a unique string *)
Fixpoint StringInSlice (arr : list string) (i : string) : bool :=
  match arr with
  | [] => false
  | v :: arr' => if String.eqb v i then true else StringInSlice arr' i
  end.

(** Makes interfaces sortable, by preferred name *)
Definition byPrefInterface := list net.Interface.

Definition isInterfaceEn (c : net.Interface) : bool :=
  strings.HasPrefix (net.Name c) "en".

Definition isInterfaceLocal (c : net.Interface) : bool :=
  strings.HasPrefix (net.Name c) "lo".

Definition Len (c : byPrefInterface) : nat := length c.

(** [c[i], c[j] = c[j], c[i]]; [None] is the panic of an index out of
    range. *)
Definition Swap (c : byPrefInterface) (i j : nat) : option byPrefInterface :=
  ci ← c !! i;
  cj ← c !! j;
  Some (<[j := ci]> (<[i := cj]> c)).

(** the comparison of [Less] on the two elements [c[i]] and [c[j]]:
    sort en* interfaces first, then lo, then alphabetically *)
Definition less (ci cj : net.Interface) : bool :=
  if isInterfaceEn ci && negb (isInterfaceEn cj) then true
  else if negb (isInterfaceEn ci) && isInterfaceEn cj then false
  else if isInterfaceLocal ci && negb (isInterfaceLocal cj) then true
  else if negb (isInterfaceLocal ci) && isInterfaceLocal cj then false
  else sort.string_lt (net.Name ci) (net.Name cj).

(** [c.Less(i, j)]; [None] is the panic of an index out of range. *)
Definition Less (c : byPrefInterface) (i j : nat) : option bool :=
  ci ← c !! i;
  cj ← c !! j;
  Some (less ci cj).

(** A Go raw string literal.  The model writes the double quote of the
    literal as an apostrophe, and [raw] puts it back. *)
Definition raw (lit : string) : string :=
  Bytes.map (λ c, if Ascii.eqb c "'" then "034"%char else c) lit.

(** a call of the file system *)
Inductive event :=
| WriteFile (filename data : string) (perm : N).

(** the JSON object that [GenServerNodeDefaults] writes for [localIAs[i]] *)
Definition serverNode (localIA : string) : string :=
  (* strings.Replace(localIAs[i], "_", ":", -1) *)
  let ia := strings.ReplaceAll localIA "_" ":" in
  raw "{'name':'lo " +:+ ia +:+ raw "','isdas':'" +:+ ia
    +:+ raw "', 'addr':'" +:+ serDefAddr +:+ raw "','port':" +:+ strconv.Itoa serPortDef
    +:+ raw "}".

(** The loop of [GenServerNodeDefaults]: [rest] is [localIAs[i:]]. *)
Fixpoint serverNodes_loop (localIAs : list string) (i : nat) (rest : list string)
    (jsonBuf : string) : string :=
  match rest with
  | [] => jsonBuf
  | localIA :: rest' =>
      let jsonBuf := jsonBuf +:+ serverNode localIA in
      let jsonBuf :=
        if (Z.of_nat i <? Z.of_nat (length localIAs) - 1)%Z
        then jsonBuf +:+ raw ","
        else jsonBuf in
      serverNodes_loop localIAs (S i) rest' jsonBuf
  end.

(** [GenServerNodeDefaults] creates server defaults for localhost testing.
    [Join] is [path.Join].  The result is the slice [localIAs] as the call
    leaves it, and the write it makes; the error of the write goes to
    [CheckError] of webapp/util, the last statement. *)
Definition GenServerNodeDefaults (Join : string → string → string)
    (options : CmdOptions) (localIAs : list string) : list string * list event :=
  (* reverse sort so that the default server will oppose the default client *)
  let localIAs := sort.SortReverseStrings localIAs in
  let serFp := Join (StaticRoot options) cfgFileSerUser in
  let jsonBuf := raw "{ 'all': [" in
  let jsonBuf := serverNodes_loop localIAs 0 localIAs jsonBuf in
  let jsonBuf := jsonBuf +:+ raw "] }" in
  (* ioutil.WriteFile(serFp, jsonBuf, 0644); octal 644 is 420 *)
  (localIAs, [WriteFile serFp jsonBuf 420]).

End lib.

(** the class of an interface for [Less]: en first, then lo, then the
    others *)
Definition rank (c : net.Interface) : nat :=
  if lib.isInterfaceEn c then 0 else if lib.isInterfaceLocal c then 1 else 2.

(** the strings joined with [sep] between them *)
Fixpoint join (sep : string) (parts : list string) : string :=
  match parts with
  | [] => ""
  | [x] => x
  | x :: parts' => x +:+ sep +:+ join sep parts'
  end.

(** the exchange of the indices [i] and [j] *)
Definition exchange (i j k : nat) : nat :=
  if decide (k = i) then j else if decide (k = j) then i else k.

(** *** Sample options and interfaces *)

Definition sample_options : lib.CmdOptions :=
  {| lib.Addr := "127.0.0.1"; lib.Port := 8000; lib.StaticRoot := "/opt/webapp/web";
     lib.BrowseRoot := "/opt/webapp/web/data"; lib.AppsRoot := "/opt/bin";
     lib.ScionBin := "/usr/bin"; lib.ScionGen := "/etc/scion";
     lib.ScionGenCache := "/var/lib/scion"; lib.ScionLogs := "logs" |}.

Definition interface (name : string) : net.Interface :=
  {| net.Index := 1; net.MTU := 1500; net.Name := name; net.HardwareAddr := "";
     net.Flags := 0 |}.

(** ** Byte strings: basic facts *)

Section BytesFacts.

Implicit Types (s a b : string) (p : ascii → bool).

Lemma app_nil_r s : s +:+ "" = s.
Proof. induction s as [|c s IH]; simpl; [done | by rewrite IH]. Qed.

Lemma app_assoc a b s : (a +:+ b) +:+ s = a +:+ (b +:+ s).
Proof. induction a as [|c a IH]; simpl; [done | by rewrite IH]. Qed.

Lemma length_app a b : String.length (a +:+ b) = String.length a + String.length b.
Proof. induction a as [|c a IH]; simpl; [done | by rewrite IH]. Qed.

Lemma take_app_length a b : Bytes.take (String.length a) (a +:+ b) = a.
Proof. induction a as [|c a IH]; simpl; [by destruct b | by rewrite IH]. Qed.

Lemma drop_app_length a b : Bytes.drop (String.length a) (a +:+ b) = b.
Proof. induction a as [|c a IH]; simpl; [done | by rewrite IH]. Qed.

Lemma take_length s : Bytes.take (String.length s) s = s.
Proof. induction s as [|c s IH]; simpl; [done | by rewrite IH]. Qed.

Lemma drop_0 s : Bytes.drop 0 s = s.
Proof. by destruct s. Qed.

Lemma slice_app a b s :
  Bytes.slice (String.length a) (String.length a + String.length b) (a +:+ b +:+ s) = b.
Proof.
  unfold Bytes.slice. rewrite drop_app_length.
  replace (String.length a + String.length b - String.length a)
    with (String.length b) by lia.
  apply take_app_length.
Qed.

Lemma slice_mid n m a b s :
  n = String.length a → m = n + String.length b →
  Bytes.slice n m (a +:+ b +:+ s) = b.
Proof. intros -> ->. apply slice_app. Qed.

Lemma slice_prefix a s : Bytes.slice 0 (String.length a) (a +:+ s) = a.
Proof. unfold Bytes.slice. rewrite drop_0, Nat.sub_0_r. apply take_app_length. Qed.

Lemma slice_suffix a b :
  Bytes.slice (String.length a) (String.length (a +:+ b)) (a +:+ b) = b.
Proof.
  unfold Bytes.slice. rewrite drop_app_length, length_app.
  replace (String.length a + String.length b - String.length a)
    with (String.length b) by lia.
  apply take_length.
Qed.

Lemma all_app p a b : Bytes.all p (a +:+ b) = Bytes.all p a && Bytes.all p b.
Proof. induction a as [|c a IH]; simpl; [done | by rewrite IH, andb_assoc]. Qed.

(** [Bytes.span] splits the string, the first part satisfies [p] and the second
    does not start with a byte that does. *)
Lemma span_spec p s a b :
  Bytes.span p s = (a, b) →
  s = a +:+ b ∧ Bytes.all p a = true ∧
  match b with String c _ => p c = false | "" => True end.
Proof.
  revert a b. induction s as [|c s IH]; simpl; intros a b Hs.
  - by inversion Hs.
  - destruct (p c) eqn:Hc.
    + destruct (Bytes.span p s) as [a' b'] eqn:Hsp. inversion Hs; subst.
      destruct (IH a' b eq_refl) as (-> & Ha & Hb).
      simpl. by rewrite Hc, Ha.
    + inversion Hs; subst. simpl. by rewrite Hc.
Qed.

Lemma span_app p a b :
  Bytes.all p a = true →
  match b with String c _ => p c = false | "" => True end →
  Bytes.span p (a +:+ b) = (a, b).
Proof.
  intros Ha Hb. induction a as [|c a IH]; simpl in *.
  - destruct b as [|c b]; simpl; [done | by rewrite Hb].
  - apply andb_prop in Ha as [Hc Ha]. by rewrite Hc, (IH Ha).
Qed.

End BytesFacts.

(** ** The matcher on repeated character classes *)

Section ClassLoops.

Implicit Types (p : ascii → bool) (k : cursor → submatches → option submatches).

Lemma run_star_cls_cons p n c s cs k :
  run (Star (Cls p)) {| pos := n; rest := String c s |} cs k =
  if p c then
    match run (Star (Cls p)) {| pos := S n; rest := s |} cs k with
    | Some m => Some m
    | None => k {| pos := n; rest := String c s |} cs
    end
  else k {| pos := n; rest := String c s |} cs.
Proof.
  cbn. destruct (p c); [|done]. by rewrite Nat.leb_refl.
Qed.

(** Greedy repetition stops exactly at the end of the longest run of
    class bytes when what follows cannot start with one. *)
Lemma run_star_cls_span p k s n cs a b :
  rejects p k → Bytes.span p s = (a, b) →
  run (Star (Cls p)) {| pos := n; rest := s |} cs k =
  k {| pos := n + String.length a; rest := b |} cs.
Proof.
  intros Hk. revert n a b. induction s as [|c s IH]; intros n a b Hsp.
  - inversion Hsp; subst. cbn. by rewrite Nat.add_0_r.
  - rewrite run_star_cls_cons. simpl in Hsp. destruct (p c) eqn:Hc.
    + destruct (Bytes.span p s) as [a' b'] eqn:Hs'. inversion Hsp; subst.
      rewrite (IH (S n) a' b eq_refl), (Hk n c s cs Hc). simpl.
      replace (n + S (String.length a')) with (S n + String.length a') by lia.
      by destruct (k _ cs).
    + inversion Hsp; subst. simpl. by rewrite Nat.add_0_r.
Qed.

Lemma run_plus_cls_span p k s n cs a b :
  rejects p k → Bytes.span p s = (a, b) →
  run (Plus (Cls p)) {| pos := n; rest := s |} cs k =
  match a with
  | "" => None
  | String _ _ => k {| pos := n + String.length a; rest := b |} cs
  end.
Proof.
  intros Hk Hsp. destruct s as [|c s]; simpl in Hsp.
  - by inversion Hsp.
  - unfold Plus.
    change (run (Cat (Cls p) (Star (Cls p))) {| pos := n; rest := String c s |} cs k)
      with (if p c then run (Star (Cls p)) {| pos := S n; rest := s |} cs k else None).
    destruct (p c) eqn:Hc.
    + destruct (Bytes.span p s) as [a' b'] eqn:Hs'. inversion Hsp; subst.
      rewrite (run_star_cls_span p k s (S n) cs a' b Hk Hs'). simpl.
      by replace (n + S (String.length a')) with (S (n + String.length a')) by lia.
    + by inversion Hsp.
Qed.

End ClassLoops.

(** ** The pattern of munged addresses *)

Section MungedPattern.

Lemma span_all p s : Bytes.all p s = true → Bytes.span p s = (s, "").
Proof.
  intros H. rewrite <- (app_nil_r s) at 1. by apply span_app.
Qed.

Lemma span_not_all p s a b :
  Bytes.span p s = (a, b) → Bytes.all p s = false → b ≠ "".
Proof.
  intros Hsp Hall ->. apply span_spec in Hsp as (-> & Ha & _).
  rewrite app_nil_r in Hall. congruence.
Qed.

Lemma hyphen_not_digit c : is_digit c = true → Ascii.eqb c "-" = false.
Proof. intros H. destruct (Ascii.eqb_spec c "-"); [by subst | done]. Qed.

Lemma hyphen_not_hex c : is_hex_or_underscore c = true → Ascii.eqb c "-" = false.
Proof. intros H. destruct (Ascii.eqb_spec c "-"); [by subst | done]. Qed.

Lemma run_chr_cat c r n s cs k :
  run (Cat (Chr c) r) {| pos := n; rest := s |} cs k =
  match s with
  | String x s' =>
      if Ascii.eqb x c then run r {| pos := S n; rest := s' |} cs k else None
  | "" => None
  end.
Proof. by destruct s. Qed.

Lemma run_cap_cat i r1 r2 cu cs k :
  run (Cat (Cap i r1) r2) cu cs k =
  run r1 cu cs (λ cu' cs', run r2 cu' (<[i := Some (pos cu, pos cu')]> cs') k).
Proof. done. Qed.

Lemma match_here_munged host :
  match_here mungedScionAddr {| pos := 0; rest := host |} =
  match parse_munged host with
  | Some (d, e, h) => Some (munged_positions d e h)
  | None => None
  end.
Proof.
  unfold match_here, mungedScionAddr, parse_munged; simpl expr; simpl numSubexp.
  change (run (Cap 0 (Cat Bol ?r)) ?cu ?cs ?k)
    with (run r cu cs (λ cu' cs', k cu' (<[0 := Some (pos cu, pos cu')]> cs'))).
  rewrite run_cap_cat.
  destruct (Bytes.span is_digit host) as [d r1] eqn:Hd.
  erewrite run_plus_cls_span; [| | exact Hd].
  2:{ intros n c s cs Hc. rewrite run_chr_cat. by rewrite hyphen_not_digit. }
  destruct d as [|d0 d]; [done|].
  rewrite run_chr_cat. unfold strip_hyphen.
  destruct r1 as [|c1 r2]; [done|]. destruct (Ascii.eqb c1 "-"); [|done].
  rewrite run_cap_cat.
  destruct (Bytes.span is_hex_or_underscore r2) as [e r3] eqn:He.
  erewrite run_plus_cls_span; [| | exact He].
  2:{ intros n c s cs Hc. rewrite run_chr_cat. by rewrite hyphen_not_hex. }
  destruct e as [|e0 e]; [done|].
  rewrite run_chr_cat.
  destruct r3 as [|c3 h]; [done|]. destruct (Ascii.eqb c3 "-"); [|done].
  rewrite run_cap_cat.
  destruct (Bytes.span not_newline h) as [h1 h2] eqn:Hh.
  erewrite run_star_cls_span; [| | exact Hh].
  2:{ by intros n c s cs Hc. }
  destruct (Bytes.all not_newline h) eqn:Hall.
  - rewrite (span_all _ _ Hall) in Hh. by inversion Hh; subst.
  - pose proof (span_not_all _ _ _ _ Hh Hall). by destruct h2.
Qed.

Lemma search_munged_later p s : search mungedScionAddr (S p) s = None.
Proof. revert p. induction s as [|c s IH]; intros p; simpl; [done | apply IH]. Qed.

Lemma doExecute_munged host :
  doExecute mungedScionAddr host 0 =
  match parse_munged host with
  | Some (d, e, h) => Some (munged_positions d e h)
  | None => None
  end.
Proof.
  unfold doExecute. rewrite drop_0, <- match_here_munged.
  destruct host as [|c host]; [done|].
  change (search mungedScionAddr 0 (String c host))
    with (match match_here mungedScionAddr {| pos := 0; rest := String c host |} with
          | Some m => Some m
          | None => search mungedScionAddr 1 host
          end).
  rewrite search_munged_later. by destruct (match_here _ _).
Qed.

Lemma strip_hyphen_Some s s' : strip_hyphen s = Some s' → s = "-" +:+ s'.
Proof.
  destruct s as [|c s]; simpl; [done|].
  destruct (Ascii.eqb_spec c "-"); [|done]. by intros [= ->]; subst.
Qed.

Lemma parse_munged_Some host d e h :
  parse_munged host = Some (d, e, h) →
  host = d +:+ "-" +:+ e +:+ "-" +:+ h ∧
  d ≠ "" ∧ Bytes.all is_digit d = true ∧
  e ≠ "" ∧ Bytes.all is_hex_or_underscore e = true ∧ Bytes.all not_newline h = true.
Proof.
  unfold parse_munged.
  destruct (Bytes.span is_digit host) as [d' r1] eqn:Hd.
  destruct d' as [|d0 d']; [done|].
  destruct (strip_hyphen r1) as [r2|] eqn:Hr1; [|done].
  destruct (Bytes.span is_hex_or_underscore r2) as [e' r3] eqn:He.
  destruct e' as [|e0 e']; [done|].
  destruct (strip_hyphen r3) as [h'|] eqn:Hr3; [|done].
  destruct (Bytes.all not_newline h') eqn:Hh; [|done].
  intros [= <- <- <-].
  apply span_spec in Hd as (-> & Hd & _). apply span_spec in He as (-> & He & _).
  apply strip_hyphen_Some in Hr1 as ->. apply strip_hyphen_Some in Hr3 as ->.
  done.
Qed.

Lemma parse_munged_app d e h :
  d ≠ "" → Bytes.all is_digit d = true →
  e ≠ "" → Bytes.all is_hex_or_underscore e = true → Bytes.all not_newline h = true →
  parse_munged (d +:+ "-" +:+ e +:+ "-" +:+ h) = Some (d, e, h).
Proof.
  intros Hd0 Hd He0 He Hh. unfold parse_munged.
  rewrite (span_app is_digit d _ Hd) by done.
  destruct d as [|d0 d]; [done|]. simpl strip_hyphen. cbv iota beta.
  rewrite (span_app is_hex_or_underscore e _ He) by done.
  destruct e as [|e0 e]; [done|]. simpl strip_hyphen. cbv iota beta. by rewrite Hh.
Qed.

Lemma structured_parse host : structured host ↔ is_Some (parse_munged host).
Proof.
  split.
  - intros (D & E & H & HD0 & HD & HE0 & HE & HH & ->).
    rewrite parse_munged_app by done. by eexists.
  - intros [[[d e] h] Hp]. apply parse_munged_Some in Hp. exists d, e, h. tauto.
Qed.

(** What [FindStringSubmatch] returns for the pattern: the host and its
    three parts, or nil. *)
Lemma FindStringSubmatch_munged host :
  FindStringSubmatch mungedScionAddr host =
  match parse_munged host with
  | Some (d, e, h) => Some [host; d; e; h]
  | None => None
  end.
Proof.
  unfold FindStringSubmatch. rewrite doExecute_munged.
  destruct (parse_munged host) as [[[d e] h]|] eqn:Hp; [|done].
  apply parse_munged_Some in Hp as (Hhost & _).
  unfold munged_positions. cbv zeta. simpl List.map. unfold group_text.
  f_equal. f_equal; [|f_equal; [|f_equal; [|f_equal]]].
  - subst host. unfold Bytes.slice. rewrite drop_0, Nat.sub_0_r.
    rewrite <- (take_length (d +:+ _)) at 2. f_equal.
    rewrite !length_app. simpl. lia.
  - subst host. apply slice_prefix.
  - subst host. rewrite <- app_assoc.
    apply slice_mid; rewrite ?length_app; simpl; lia.
  - subst host. rewrite <- (app_nil_r h) at 2.
    rewrite <- (app_assoc e), <- (app_assoc "-"), <- (app_assoc d).
    apply slice_mid; rewrite ?length_app; simpl; lia.
Qed.

Lemma demunge_structured host d e h :
  parse_munged host = Some (d, e, h) →
  demunge host = "[" +:+ d +:+ "-" +:+ strings.ReplaceAll e "_" ":" +:+ "," +:+ h +:+ "]".
Proof. intros Hp. unfold demunge. by rewrite FindStringSubmatch_munged, Hp. Qed.

Lemma demunge_plain host :
  parse_munged host = None → demunge host = strings.TrimSuffix host ".scion".
Proof. intros Hp. unfold demunge. by rewrite FindStringSubmatch_munged, Hp. Qed.

End MungedPattern.

(** ** Suffixes and one-byte replacement *)

Section StringsFacts.

Implicit Types (s p suf : string).

Lemma take_drop n s : Bytes.take n s +:+ Bytes.drop n s = s.
Proof.
  revert s. induction n as [|n IH]; intros [|c s]; simpl; try done.
  by rewrite IH.
Qed.

Lemma HasSuffix_app p suf : strings.HasSuffix (p +:+ suf) suf = true.
Proof.
  unfold strings.HasSuffix. rewrite length_app.
  replace (String.length p + String.length suf - String.length suf)
    with (String.length p) by lia.
  rewrite drop_app_length, String.eqb_refl, andb_true_r.
  apply Nat.leb_le. lia.
Qed.

Lemma HasSuffix_true s suf :
  strings.HasSuffix s suf = true ↔ ∃ p, s = p +:+ suf.
Proof.
  split.
  - unfold strings.HasSuffix. intros [_ Heq%String.eqb_eq]%andb_prop.
    exists (Bytes.take (String.length s - String.length suf) s).
    rewrite <- (take_drop (String.length s - String.length suf) s) at 1.
    by rewrite Heq.
  - intros [p ->]. apply HasSuffix_app.
Qed.

Lemma TrimSuffix_app p suf : strings.TrimSuffix (p +:+ suf) suf = p.
Proof.
  unfold strings.TrimSuffix. rewrite HasSuffix_app, length_app.
  replace (String.length p + String.length suf - String.length suf)
    with (String.length p) by lia.
  apply take_app_length.
Qed.

Lemma TrimSuffix_other s suf :
  (∀ p, s ≠ p +:+ suf) → strings.TrimSuffix s suf = s.
Proof.
  intros Hno. unfold strings.TrimSuffix.
  destruct (strings.HasSuffix s suf) eqn:Hs; [|done].
  apply HasSuffix_true in Hs as [p ->]. by destruct (Hno p).
Qed.

Lemma ReplaceAll_byte s a b :
  strings.ReplaceAll s (String a "") (String b "") =
  Bytes.map (λ c, if Ascii.eqb c a then b else c) s.
Proof.
  unfold strings.ReplaceAll. induction s as [|c s IH]; simpl; [done|].
  rewrite IH. destruct (Ascii.eqb c a); simpl; [|done]. by destruct s.
Qed.

Lemma map_map f g s : Bytes.map g (Bytes.map f s) = Bytes.map (λ c, g (f c)) s.
Proof. induction s as [|c s IH]; simpl; [done | by rewrite IH]. Qed.

Lemma map_id_on q f s :
  (∀ c, q c = true → f c = c) → Bytes.all q s = true → Bytes.map f s = s.
Proof.
  intros Hf. induction s as [|c s IH]; simpl; [done|].
  intros [Hc Hs]%andb_prop. by rewrite (Hf c Hc), (IH Hs).
Qed.

Lemma all_map q q' f s :
  (∀ c, q c = true → q' (f c) = true) →
  Bytes.all q s = true → Bytes.all q' (Bytes.map f s) = true.
Proof.
  intros Hf. induction s as [|c s IH]; simpl; [done|].
  intros [Hc Hs]%andb_prop. by rewrite (Hf c Hc), (IH Hs).
Qed.

Lemma map_nonempty f s : s ≠ "" → Bytes.map f s ≠ "".
Proof. by destruct s. Qed.

End StringsFacts.

(** ** The entity segment: colons and underscores *)

Section EntitySegment.

Lemma colon_underscore_colon c :
  is_hex_or_colon c = true →
  is_hex_or_underscore (colon_to_underscore c) = true ∧
  underscore_to_colon (colon_to_underscore c) = c.
Proof.
  destruct c as [[] [] [] [] [] [] [] []]; vm_compute; intros H;
    first [discriminate H | split; reflexivity].
Qed.

Lemma underscore_colon_underscore c :
  is_hex_or_underscore c = true →
  is_hex_or_colon (underscore_to_colon c) = true ∧
  colon_to_underscore (underscore_to_colon c) = c.
Proof.
  destruct c as [[] [] [] [] [] [] [] []]; vm_compute; intros H;
    first [discriminate H | split; reflexivity].
Qed.

(** Replacing the colons of an entity ID by underscores gives bytes of
    the class of the pattern, and replacing the underscores back gives
    the entity ID again. *)
Lemma munge_entity E :
  Bytes.all is_hex_or_colon E = true →
  Bytes.all is_hex_or_underscore (strings.ReplaceAll E ":" "_") = true ∧
  strings.ReplaceAll (strings.ReplaceAll E ":" "_") "_" ":" = E.
Proof.
  intros HE. rewrite !ReplaceAll_byte, map_map. split.
  - eapply all_map; [|exact HE]. intros c Hc. by apply colon_underscore_colon.
  - eapply map_id_on; [|exact HE]. intros c Hc.
    by apply (colon_underscore_colon c).
Qed.

(** The other direction: the substitution is a bijection between entity
    IDs and the segments the pattern accepts. *)
Lemma demunge_entity E' :
  Bytes.all is_hex_or_underscore E' = true →
  Bytes.all is_hex_or_colon (strings.ReplaceAll E' "_" ":") = true ∧
  strings.ReplaceAll (strings.ReplaceAll E' "_" ":") ":" "_" = E'.
Proof.
  intros HE. rewrite !ReplaceAll_byte, map_map. split.
  - eapply all_map; [|exact HE]. intros c Hc. by apply underscore_colon_underscore.
  - eapply map_id_on; [|exact HE]. intros c Hc.
    by apply (underscore_colon_underscore c).
Qed.

End EntitySegment.

(** ** The address codec: [demunge] *)

(** C1, as amended.  For digits D, an entity ID E of hexadecimal digits and
    colons (both non-empty) and a host token H without line feed, [demunge]
    maps the munged hostname D-E'-H, where E' is E with every colon
    replaced by an underscore, to the canonical string [D-E,H] in brackets;
    replacing the underscores of E' by colons gives E back. *)
Theorem demunge_round_trip (D E H : string) :
  D ≠ "" → Bytes.all is_digit D = true →
  E ≠ "" → Bytes.all is_hex_or_colon E = true →
  Bytes.all not_newline H = true →
  demunge (spec_munged D E H) = spec_canonical D E H ∧
  strings.ReplaceAll (strings.ReplaceAll E ":" "_") "_" ":" = E.
Proof.
  intros HD0 HD HE0 HE HH.
  destruct (munge_entity E HE) as [HE' Hinv]. split; [|exact Hinv].
  unfold spec_munged, spec_canonical.
  erewrite demunge_structured.
  - by rewrite Hinv.
  - apply parse_munged_app; try done.
    rewrite ReplaceAll_byte. by apply map_nonempty.
Qed.

Lemma demunge_round_trip_witness :
  let D := "1" in
  let E := "ff00:0:110" in
  let H := "192.0.2.1" in
  (D ≠ "" ∧ Bytes.all is_digit D = true ∧ E ≠ "" ∧ Bytes.all is_hex_or_colon E = true
   ∧ Bytes.all not_newline H = true) ∧
  demunge "1-ff00_0_110-192.0.2.1" = "[1-ff00:0:110,192.0.2.1]".
Proof.
  cbv zeta. split; [repeat split; first [discriminate | reflexivity]|].
  apply (demunge_round_trip "1" "ff00:0:110" "192.0.2.1");
    first [discriminate | reflexivity].
Defined.

(** C1 as stated fails when the host token holds a line feed: the dot of
    the pattern does not match it, the pattern does not match the
    hostname, and [demunge] returns the hostname as it is. *)
Lemma demunge_round_trip_line_feed :
  let D := "1" in
  let E := "ff00:0:110" in
  let H := "a" +:+ Bytes.LF in
  D ≠ "" ∧ Bytes.all is_digit D = true ∧
  E ≠ "" ∧ Bytes.all is_hex_or_colon E = true ∧
  demunge (spec_munged D E H) = spec_munged D E H ∧
  demunge (spec_munged D E H) ≠ spec_canonical D E H.
Proof. cbv zeta. repeat split; first [discriminate | reflexivity]. Qed.

(** C2, as amended.  The pattern matches the hostname with the marker
    suffix in its host token, and on a match [demunge] does not strip the
    suffix: the result is [1-ff00:0:110,192.0.2.1.scion] in brackets.  The
    hostname without the suffix gives [1-ff00:0:110,192.0.2.1]. *)
Theorem demunge_scenario :
  demunge "1-ff00_0_110-192.0.2.1.scion" = "[1-ff00:0:110,192.0.2.1.scion]" ∧
  demunge "1-ff00_0_110-192.0.2.1" = "[1-ff00:0:110,192.0.2.1]".
Proof. split; reflexivity. Qed.

(** C2 as stated fails: the result keeps the suffix. *)
Lemma demunge_scenario_keeps_suffix :
  demunge "1-ff00_0_110-192.0.2.1.scion" ≠ "[1-ff00:0:110,192.0.2.1]".
Proof. discriminate. Qed.

Lemma structured_any_rest_weaker host : structured host → structured_any_rest host.
Proof. intros (D & E & H & ? & ? & ? & ? & _ & ?). by exists D, E, H. Qed.

Lemma demunge_unstructured host :
  ¬ structured host → demunge host = strings.TrimSuffix host ".scion".
Proof.
  intros Hns. apply demunge_plain.
  destruct (parse_munged host) eqn:Hp; [|done].
  destruct Hns. apply structured_parse. by eexists.
Qed.

Lemma TrimSuffix_cases s suf :
  (∃ p, s = p +:+ suf ∧ strings.TrimSuffix s suf = p) ∨
  ((∀ p, s ≠ p +:+ suf) ∧ strings.TrimSuffix s suf = s).
Proof.
  destruct (strings.HasSuffix s suf) eqn:Hs.
  - left. apply HasSuffix_true in Hs as [p ->]. exists p.
    by rewrite TrimSuffix_app.
  - right. assert (∀ p, s ≠ p +:+ suf) as Hno.
    { intros p ->. by rewrite HasSuffix_app in Hs. }
    split; [done|]. by apply TrimSuffix_other.
Qed.

(** the slice of submatches of [mungedScionAddr] has four entries *)
Lemma FindStringSubmatch_munged_length h parts :
  FindStringSubmatch mungedScionAddr h = Some parts → length parts = 4.
Proof.
  rewrite FindStringSubmatch_munged.
  destruct (parse_munged h) as [[[d e] h']|]; [|done]. by intros [= <-].
Qed.

(** C3.  For a hostname that the pattern does not match, [demunge]
    returns [strings.TrimSuffix] of it: the hostname without its final
    .scion when it ends with it, the hostname itself when it does not.
    The hostnames the pattern matches are the [structured] ones, whose
    rest has no line feed; a hostname that is not even of the form D-E-H
    with an arbitrary rest is one of the others
    ([structured_any_rest_weaker]).  [demunge] has a result on every
    string: the only indexing it does is into the four submatches of a
    match. *)
Theorem demunge_pass_through (host : string) :
  ¬ structured host →
  demunge host = strings.TrimSuffix host ".scion" ∧
  ((∃ p, host = p +:+ ".scion" ∧ demunge host = p) ∨
   ((∀ p, host ≠ p +:+ ".scion") ∧ demunge host = host)) ∧
  (∀ h parts, FindStringSubmatch mungedScionAddr h = Some parts → length parts = 4).
Proof.
  intros Hns. rewrite (demunge_unstructured host Hns).
  split; [done|]. split; [apply TrimSuffix_cases|].
  apply FindStringSubmatch_munged_length.
Qed.

Lemma not_structured_by_parse host : parse_munged host = None → ¬ structured host.
Proof. intros Hp [x Hx]%structured_parse. congruence. Qed.

Lemma demunge_pass_through_witness :
  ¬ structured "www.scionlab.org.scion" ∧
  demunge "www.scionlab.org.scion" = "www.scionlab.org" ∧
  (∃ p, "www.scionlab.org.scion" = p +:+ ".scion" ∧ demunge "www.scionlab.org.scion" = p).
Proof.
  assert (¬ structured "www.scionlab.org.scion") as Hns
    by (apply not_structured_by_parse; reflexivity).
  split; [exact Hns|].
  destruct (demunge_pass_through "www.scionlab.org.scion" Hns) as (Hd & _ & _).
  split; [exact Hd|]. by exists "www.scionlab.org".
Defined.

(** C10.  On the pass-through path [demunge] removes nothing or exactly
    one final .scion: the hostname is the result followed by nothing or
    by .scion, so bytes before the end are never touched; a hostname
    p.scion gives p, whatever p ends with, as example.scion.scion gives
    example.scion. *)
Theorem demunge_single_suffix (host : string) :
  ¬ structured host →
  (∃ tail, host = demunge host +:+ tail ∧ (tail = "" ∨ tail = ".scion")) ∧
  (∀ p, host = p +:+ ".scion" → demunge host = p) ∧
  demunge "example.scion.scion" = "example.scion".
Proof.
  intros Hns. rewrite (demunge_unstructured host Hns). split; [|split; [|done]].
  - destruct (TrimSuffix_cases host ".scion") as [(p & Hp & Hr)|[_ Hr]]; rewrite Hr.
    + exists ".scion". auto.
    + exists "". rewrite app_nil_r. auto.
  - intros p ->. apply TrimSuffix_app.
Qed.

Lemma demunge_single_suffix_witness :
  ¬ structured "example.scion.scion" ∧
  demunge "example.scion.scion" = "example.scion".
Proof.
  assert (¬ structured "example.scion.scion") as Hns
    by (apply not_structured_by_parse; reflexivity).
  split; [exact Hns|].
  by apply (demunge_single_suffix "example.scion.scion" Hns).
Defined.

(** ** The rewriting proxy: [ServeHTTP] *)

Lemma ServeHTTP_roundTrips range h w req :
  roundTrips (ServeHTTP range h w req) = [outbound req].
Proof.
  unfold ServeHTTP. cbv zeta. simpl.
  change (Del (reqHeader req) "Accept-Encoding")
    with (delete "Accept-Encoding" (reqHeader req)).
  fold (outbound req).
  destruct (transport h (outbound req)) as [resp|err]; [|done].
  by destruct (strings.HasPrefix _ _).
Qed.



(** C7.  The handler calls the transport once, with a request whose Host
    and URL.Host are [demunge] of the inbound Host, whose URL scheme is
    https and whose header map has no Accept-Encoding entry, under
    whatever spelling the key is asked for; the other header entries and
    the rest of the request are the inbound ones. *)
Theorem ServeHTTP_prepares_request (range : map_range) (h : proxyHandler)
    (w : ResponseWriter) (req : Request) :
  ∃ req',
    roundTrips (ServeHTTP range h w req) = [req'] ∧
    Host req' = demunge (Host req) ∧
    URLHost (reqURL req') = demunge (Host req) ∧
    Scheme (reqURL req') = "https" ∧
    reqHeader req' !! "Accept-Encoding" = None ∧
    (∀ k, CanonicalHeaderKey k = "Accept-Encoding" → Get (reqHeader req') k = "") ∧
    (∀ k, k ≠ "Accept-Encoding" → reqHeader req' !! k = reqHeader req !! k) ∧
    Method req' = Method req ∧ Path (reqURL req') = Path (reqURL req) ∧
    RawQuery (reqURL req') = RawQuery (reqURL req) ∧ reqBody req' = reqBody req.
Proof.
  exists (outbound req). split; [apply ServeHTTP_roundTrips|].
  repeat split; simpl.
  - apply lookup_delete_eq.
  - intros k Hk. unfold Get, values. by rewrite Hk, lookup_delete_eq.
  - intros k Hk. by apply lookup_delete_ne.
Qed.




(** ** Copying the header map *)

Section HeaderCopy.

Context (f : string → string).

Implicit Types (h dst src : Header) (k : string) (vv : list string).

Lemma values_Add h k v k' :
  values (Add h k v) k' =
  if decide (k' = CanonicalHeaderKey k) then (values h k' ++ [v])%list else values h k'.
Proof.
  unfold Add, values at 1. case_decide as Hk.
  - subst k'. by rewrite lookup_insert_eq.
  - by rewrite lookup_insert_ne.
Qed.

Lemma values_add_values dst k vv k' :
  values (add_values f dst k vv) k' =
  if decide (k' = CanonicalHeaderKey k)
  then (values dst k' ++ List.map f vv)%list else values dst k'.
Proof.
  unfold add_values. revert dst. induction vv as [|v vv IH]; intros dst; simpl.
  - case_decide; [by rewrite List.app_nil_r | done].
  - rewrite IH, values_Add. case_decide; [|done].
    by rewrite <- List.app_assoc.
Qed.

Lemma no_empty_Add h k v : no_empty h → no_empty (Add h k v).
Proof.
  intros Hh k' vv'. unfold Add.
  destruct (decide (k' = CanonicalHeaderKey k)) as [->|Hne].
  - rewrite lookup_insert_eq. intros [= <-]. by destruct (values h _).
  - rewrite lookup_insert_ne by done. apply Hh.
Qed.

Lemma no_empty_add_values dst k vv : no_empty dst → no_empty (add_values f dst k vv).
Proof.
  unfold add_values. revert dst. induction vv as [|v vv IH]; intros dst Hd; simpl.
  - done.
  - apply IH. by apply no_empty_Add.
Qed.

Lemma no_empty_copy_entries dst entries :
  no_empty dst → no_empty (copy_entries f dst entries).
Proof.
  unfold copy_entries. revert dst.
  induction entries as [|[k vv] entries IH]; intros dst Hd; simpl; [done|].
  apply IH. by apply no_empty_add_values.
Qed.

Lemma values_insert h k vv k' :
  values (<[k := vv]> h) k' = if decide (k' = k) then vv else values h k'.
Proof.
  unfold values. case_decide as Hk.
  - subst k'. by rewrite lookup_insert_eq.
  - by rewrite lookup_insert_ne.
Qed.

(** With canonical keys, each visited once, the values under a key
    after the copy are those before it followed by the transformed
    values of the entry of that key. *)
Lemma values_copy_entries dst entries k' :
  NoDup entries.*1 →
  Forall (λ e, CanonicalHeaderKey e.1 = e.1) entries →
  values (copy_entries f dst entries) k' =
  (values dst k' ++ List.map f (values (list_to_map entries) k'))%list.
Proof.
  unfold copy_entries. revert dst.
  induction entries as [|[k vv] entries IH]; intros dst Hnd Hcan.
  - simpl. unfold values at 3. by rewrite lookup_empty, List.app_nil_r.
  - rewrite fmap_cons in Hnd. apply NoDup_cons in Hnd as [Hk Hnd].
    apply Forall_cons in Hcan as [Hck Hcan]. simpl in Hk, Hck.
    change (foldl ?g dst ((k, vv) :: entries))
      with (foldl g (add_values f dst k vv) entries).
    rewrite (IH _ Hnd Hcan), values_add_values, Hck.
    rewrite list_to_map_cons, values_insert. case_decide as Hkk; [|done].
    subst k'. unfold values at 2.
    rewrite (not_elem_of_list_to_map_1 _ _ Hk). simpl.
    by rewrite List.app_nil_r.
Qed.

End HeaderCopy.

Lemma is_Some_values (h : Header) k :
  no_empty h → is_Some (h !! k) ↔ values h k ≠ [].
Proof.
  intros Hh. unfold values. split.
  - intros [vv Hvv]. rewrite Hvv. simpl. by apply (Hh k).
  - by destruct (h !! k).
Qed.

Lemma copyAndReplaceHeader_entries range dst src host hostMunged :
  copyAndReplaceHeader range dst src host hostMunged =
  copy_entries (λ v, replaceMunged v host hostMunged) dst (range src).
Proof. done. Qed.

(** The copy into an empty header map of a header map with canonical keys. *)
Lemma copyAndReplaceHeader_canonical range src host hostMunged :
  visits_all range →
  (∀ k, is_Some (src !! k) → CanonicalHeaderKey k = k) →
  let dst := copyAndReplaceHeader range ∅ src host hostMunged in
  (∀ k, values dst k = List.map (λ v, replaceMunged v host hostMunged) (values src k)) ∧
  (∀ k, is_Some (dst !! k) ↔ values src k ≠ []).
Proof.
  intros Hrange Hcan. cbv zeta. rewrite copyAndReplaceHeader_entries.
  assert (NoDup (range src).*1) as Hnd.
  { rewrite (Hrange src). apply NoDup_fst_map_to_list. }
  assert (list_to_map (range src) = src) as Hsrc.
  { rewrite <- (list_to_map_to_list src) at 2.
    apply list_to_map_proper; [done | apply Hrange]. }
  assert (Forall (λ e, CanonicalHeaderKey e.1 = e.1) (range src)) as Hall.
  { apply Forall_forall. intros [k vv] Hin. simpl. apply Hcan.
    exists vv. apply elem_of_map_to_list. by rewrite <- (Hrange src). }
  assert (∀ k, values (copy_entries (λ v, replaceMunged v host hostMunged) ∅ (range src)) k
               = List.map (λ v, replaceMunged v host hostMunged) (values src k)) as Hval.
  { intros k. rewrite values_copy_entries by done. by rewrite Hsrc. }
  split; [exact Hval|]. intros k.
  rewrite is_Some_values by (apply no_empty_copy_entries; intros ? ?; by rewrite lookup_empty).
  rewrite Hval. by destruct (values src k).
Qed.



Example ServeHTTP_html_body :
  written (writer (serve (upstream html_link) (get "1-ff00_0_110-192.0.2.1")))
  = "<a href='http://1-ff00_0_110-192.0.2.1/x'>x</a>".
Proof. reflexivity. Qed.


Lemma canonical_keys_redirect : canonical_keys (respHeader redirect).
Proof. unfold canonical_keys. apply (bool_decide_unpack _). by vm_compute. Qed.



(** C4 at a failing input.  The client asks for the host x$1.scion, so
    that [hostMunged] is x$1.scion and [host] is x$1.  In the Location
    value https://x$1/path the pattern matches https://x$1, and
    [ReplaceAll] expands the $1 of the replacement http://x$1.scion to the
    text of the first group, the s of https: the client receives
    http://xs.scion/path and not http://x$1.scion/path. *)
Theorem ServeHTTP_header_rewrite_dollar :
  let out := serve (upstream dollar_redirect) (get "x$1.scion") in
  demunge "x$1.scion" = "x$1" ∧
  replaceMunged "https://x$1/path" "x$1" "x$1.scion" = "http://xs.scion/path" ∧
  snd <$> sent (writer out) = Some ({[ "Location" := ["http://xs.scion/path"] ]} : Header) ∧
  "http://xs.scion/path" ≠ "http://" +:+ "x$1.scion" +:+ "/path".
Proof. cbv zeta. repeat split; first [vm_compute; reflexivity | discriminate]. Qed.

(** ** [replaceMunged] against the substitution of the specification *)

Section Substitution.

Implicit Types (s host l : string).





















End Substitution.

Example substitute_location :
  substitute "https://[1-ff00:0:110,192.0.2.1]/path" "[1-ff00:0:110,192.0.2.1]"
             "1-ff00_0_110-192.0.2.1.scion"
  = "http://1-ff00_0_110-192.0.2.1.scion/path".
Proof. vm_compute. reflexivity. Qed.


(** The scenario of the specification: the Location header of a redirect
    to the canonical address comes back with the munged host name. *)
Example ServeHTTP_location_scenario :
  snd <$> sent (writer (serve (upstream redirect) (get "1-ff00_0_110-192.0.2.1")))
  = Some ({[ "Location" := ["http://1-ff00_0_110-192.0.2.1/path"];
             "Set-Cookie" := ["a=1"; "b=2"] ]} : Header).
Proof. vm_compute. reflexivity. Qed.

(** An error of the transport, as the client sees it. *)
Example ServeHTTP_error_scenario :
  let out := serve {| transport := λ _, inr "no path to host" |} (get "www.scionlab.org.scion") in
  fst <$> sent (writer out) = Some 503%Z ∧
  written (writer out) = "no path to host" +:+ Bytes.LF.
Proof. split; vm_compute; reflexivity. Qed.

(** * Further properties *)

(** ** [demunge] on structured hostnames *)

Lemma app_inj_r a b c : a +:+ c = b +:+ c → a = b.
Proof.
  revert b. induction a as [|x a IH]; intros [|y b] Heq; simpl in Heq.
  - done.
  - apply (f_equal String.length) in Heq. simpl in Heq. rewrite length_app in Heq. lia.
  - apply (f_equal String.length) in Heq. simpl in Heq. rewrite length_app in Heq. lia.
  - injection Heq as -> Heq. by rewrite (IH b Heq).
Qed.

Lemma structured_starts_with_digit host :
  structured host → ∃ c s, host = String c s ∧ is_digit c = true.
Proof.
  intros (D & E & H & HD0 & HD & _ & _ & _ & ->).
  destruct D as [|c D]; [done|]. simpl in HD. apply andb_prop in HD as [Hc _].
  by exists c, (D +:+ "-" +:+ E +:+ "-" +:+ H).
Qed.

Lemma structured_with_suffix p suf :
  Bytes.all not_newline suf = true → structured p → structured (p +:+ suf).
Proof.
  intros Hsuf (D & E & H & HD0 & HD & HE0 & HE & HH & ->).
  exists D, E, (H +:+ suf). repeat split; try done.
  - by rewrite all_app, HH, Hsuf.
  - by rewrite !app_assoc.
Qed.

(** X1.  Every hostname of the form D-E-H (digits, a segment of
    hexadecimal digits and underscores, a rest without line feed) is
    decoded to the bracketed address with the underscores of E turned into
    colons.  The rest H is taken as it is: hyphens and a final .scion in it
    are kept. *)
Theorem demunge_structured_host (D E H : string) :
  D ≠ "" → Bytes.all is_digit D = true →
  E ≠ "" → Bytes.all is_hex_or_underscore E = true →
  Bytes.all not_newline H = true →
  demunge (D +:+ "-" +:+ E +:+ "-" +:+ H) =
  "[" +:+ D +:+ "-" +:+ strings.ReplaceAll E "_" ":" +:+ "," +:+ H +:+ "]".
Proof. intros. apply demunge_structured. by apply parse_munged_app. Qed.

Lemma demunge_structured_host_witness :
  let D := "17" in
  let E := "ffaa_1_1" in
  let H := "10.0.0.1-x.scion" in
  (D ≠ "" ∧ Bytes.all is_digit D = true ∧ E ≠ "" ∧
   Bytes.all is_hex_or_underscore E = true ∧ Bytes.all not_newline H = true) ∧
  demunge "17-ffaa_1_1-10.0.0.1-x.scion" = "[17-ffaa:1:1,10.0.0.1-x.scion]".
Proof.
  cbv zeta. split; [repeat split; first [discriminate | reflexivity]|].
  apply (demunge_structured_host "17" "ffaa_1_1" "10.0.0.1-x.scion");
    first [discriminate | reflexivity].
Defined.

(** X2.  The pattern matches a hostname exactly when it is structured,
    and the submatches are then the hostname and its three parts. *)
Theorem mungedScionAddr_matches (host : string) (parts : list string) :
  FindStringSubmatch mungedScionAddr host = Some parts ↔
  ∃ D E H : string,
    D ≠ "" ∧ Bytes.all is_digit D = true ∧
    E ≠ "" ∧ Bytes.all is_hex_or_underscore E = true ∧
    Bytes.all not_newline H = true ∧
    host = D +:+ "-" +:+ E +:+ "-" +:+ H ∧ parts = [host; D; E; H].
Proof.
  rewrite FindStringSubmatch_munged. split.
  - destruct (parse_munged host) as [[[D E] H]|] eqn:Hp; [|done].
    intros [= <-]. apply parse_munged_Some in Hp. exists D, E, H. tauto.
  - intros (D & E & H & HD0 & HD & HE0 & HE & HH & -> & ->).
    by rewrite parse_munged_app.
Qed.

(** X3.  Two different structured hostnames are decoded to different
    addresses. *)
Theorem demunge_injective_on_structured (h1 h2 : string) :
  structured h1 → structured h2 → demunge h1 = demunge h2 → h1 = h2.
Proof.
  intros (D1 & E1 & H1 & HD01 & HD1 & HE01 & HE1 & HH1 & ->)
         (D2 & E2 & H2 & HD02 & HD2 & HE02 & HE2 & HH2 & ->) Heq.
  rewrite (demunge_structured _ D1 E1 H1) in Heq by (by apply parse_munged_app).
  rewrite (demunge_structured _ D2 E2 H2) in Heq by (by apply parse_munged_app).
  destruct (demunge_entity E1 HE1) as [Hc1 Hb1].
  destruct (demunge_entity E2 HE2) as [Hc2 Hb2].
  simpl in Heq. injection Heq as Heq.
  apply (f_equal (Bytes.span is_digit)) in Heq.
  rewrite !span_app in Heq by done. injection Heq as -> Heq.
  apply (f_equal (Bytes.span is_hex_or_colon)) in Heq.
  rewrite !span_app in Heq by done. injection Heq as HE Heq.
  apply app_inj_r in Heq as ->.
  by rewrite <- Hb1, <- Hb2, HE.
Qed.

Lemma demunge_injective_on_structured_witness :
  (structured "1-ff00_0_110-192.0.2.1" ∧ structured "1-ff00_0_110-192.0.2.1" ∧
   demunge "1-ff00_0_110-192.0.2.1" = demunge "1-ff00_0_110-192.0.2.1") ∧
  "1-ff00_0_110-192.0.2.1" = "1-ff00_0_110-192.0.2.1".
Proof.
  assert (structured "1-ff00_0_110-192.0.2.1") as Hs.
  { apply structured_parse. vm_compute. by eexists. }
  split; [by repeat split|].
  by apply (demunge_injective_on_structured _ _ Hs Hs).
Defined.

(** X4.  The result of [demunge] is never a structured hostname: the
    host the request is sent to is not in the munged form. *)
Theorem demunge_not_structured (host : string) : ¬ structured (demunge host).
Proof.
  destruct (parse_munged host) as [[[D E] H]|] eqn:Hp.
  - rewrite (demunge_structured _ _ _ _ Hp).
    intros (c & s & Heq & Hc)%structured_starts_with_digit.
    simpl in Heq. by injection Heq as <- _.
  - pose proof (not_structured_by_parse _ Hp) as Hns.
    rewrite (demunge_plain _ Hp).
    destruct (TrimSuffix_cases host ".scion") as [(p & -> & ->)|[_ ->]]; [|done].
    intros Hs. apply Hns. by apply structured_with_suffix.
Qed.

(** ** [replaceMunged] on texts with and without occurrences *)










(** ** [copyAndReplaceHeader] on arbitrary header maps *)

Section HeaderCopyGeneral.

Context (f : string → string).

Implicit Types (dst src : Header) (K : string).


End HeaderCopyGeneral.

Lemma canonicalize_byte upper c :
  let c' := if upper && is_lower c then ascii_of_nat (nat_of_ascii c - 32)
            else if negb upper && is_upper c then ascii_of_nat (nat_of_ascii c + 32)
            else c in
  (validHeaderFieldByte c = true → validHeaderFieldByte c' = true) ∧
  (if upper && is_lower c' then ascii_of_nat (nat_of_ascii c' - 32)
   else if negb upper && is_upper c' then ascii_of_nat (nat_of_ascii c' + 32)
   else c') = c'.
Proof.
  destruct upper, c as [[] [] [] [] [] [] [] []]; vm_compute; split;
    first [reflexivity | intros H; exact H].
Qed.

Lemma canonicalize_valid upper s :
  Bytes.all validHeaderFieldByte s = true →
  Bytes.all validHeaderFieldByte (canonicalize upper s) = true.
Proof.
  revert upper. induction s as [|c s IH]; intros upper; [done|].
  cbn [canonicalize Bytes.all]. intros [Hc Hs]%andb_prop.
  destruct (canonicalize_byte upper c) as [Hv _]. cbv zeta in Hv.
  by rewrite (Hv Hc), (IH _ Hs).
Qed.

Lemma canonicalize_idempotent upper s :
  canonicalize upper (canonicalize upper s) = canonicalize upper s.
Proof.
  revert upper. induction s as [|c s IH]; intros upper; [done|].
  cbn [canonicalize].
  destruct (canonicalize_byte upper c) as [_ Hi]. cbv zeta in Hi.
  by rewrite Hi, IH.
Qed.

Lemma CanonicalHeaderKey_idempotent k :
  CanonicalHeaderKey (CanonicalHeaderKey k) = CanonicalHeaderKey k.
Proof.
  unfold CanonicalHeaderKey.
  destruct (Bytes.all validHeaderFieldByte k) eqn:Hk.
  - by rewrite (canonicalize_valid true k Hk), canonicalize_idempotent.
  - by rewrite Hk.
Qed.

Lemma canonical_keys_Add (h : Header) k v :
  canonical_keys h → canonical_keys (Add h k v).
Proof.
  intros Hh. unfold Add. apply map_Forall_insert_2; [|done].
  apply CanonicalHeaderKey_idempotent.
Qed.

Lemma canonical_keys_copy_entries f (dst : Header) entries :
  canonical_keys dst → canonical_keys (copy_entries f dst entries).
Proof.
  unfold copy_entries. revert dst.
  induction entries as [|[k vv] entries IH]; intros dst Hd; [done|].
  change (foldl ?g dst ((k, vv) :: entries))
    with (foldl g (add_values f dst k vv) entries).
  apply IH. unfold add_values. clear IH. revert dst Hd.
  induction vv as [|v vv IHv]; intros dst Hd; [done|].
  simpl. apply IHv. by apply canonical_keys_Add.
Qed.


Lemma visits_all_map_to_list : visits_all map_to_list.
Proof. by intros m. Qed.




(** X10.  The copy keeps the header map well formed: if the keys of the
    destination are in canonical form, so are all keys after the copy,
    whatever the keys of the source are. *)
Theorem copyAndReplaceHeader_canonical_keys (range : map_range) (dst src : Header)
    (host hostMunged : string) :
  canonical_keys dst →
  canonical_keys (copyAndReplaceHeader range dst src host hostMunged).
Proof.
  intros Hd. rewrite copyAndReplaceHeader_entries.
  by apply canonical_keys_copy_entries.
Qed.

Lemma copyAndReplaceHeader_canonical_keys_witness :
  canonical_keys (∅ : Header) ∧
  canonical_keys (copyAndReplaceHeader map_to_list ∅ (respHeader lower_case_key)
                    "h" "h.scion").
Proof.
  assert (canonical_keys (∅ : Header)) as He by apply map_Forall_empty.
  split; [exact He|].
  by apply (copyAndReplaceHeader_canonical_keys map_to_list ∅).
Defined.

Lemma lookup_by_values (h : Header) k :
  no_empty h →
  h !! k = match values h k with [] => None | v :: vs => Some (v :: vs) end.
Proof.
  intros Hh. unfold values. destruct (h !! k) as [[|v vs]|] eqn:Hk; simpl; try done.
  by destruct (Hh k [] Hk).
Qed.

Lemma copyAndReplaceHeader_order r1 r2 (src : Header) host hostMunged :
  visits_all r1 → visits_all r2 → canonical_keys src →
  copyAndReplaceHeader r1 ∅ src host hostMunged =
  copyAndReplaceHeader r2 ∅ src host hostMunged.
Proof.
  intros H1 H2 Hcan. apply map_eq. intros k.
  assert (∀ r, visits_all r →
            copyAndReplaceHeader r ∅ src host hostMunged !! k =
            match List.map (λ v, replaceMunged v host hostMunged) (values src k) with
            | [] => None
            | v :: vs => Some (v :: vs)
            end) as Hr.
  { intros r Hv. rewrite lookup_by_values.
    - destruct (copyAndReplaceHeader_canonical r src host hostMunged Hv) as [Hval _].
      { intros k' [vv Hk']. by apply (Hcan k' vv). }
      by rewrite Hval.
    - rewrite copyAndReplaceHeader_entries. apply no_empty_copy_entries.
      intros ? ?. by rewrite lookup_empty. }
  by rewrite (Hr r1 H1), (Hr r2 H2).
Qed.

(** X11.  The response does not depend on the order in which the header
    map of the upstream response is iterated, when its keys are in
    canonical form: two runs of the handler with different iteration
    orders leave the same state. *)
Theorem ServeHTTP_iteration_order (r1 r2 : map_range) (h : proxyHandler) (req : Request) :
  visits_all r1 → visits_all r2 →
  (∀ resp, transport h (outbound req) = inl resp → canonical_keys (respHeader resp)) →
  ServeHTTP r1 h newResponseWriter req = ServeHTTP r2 h newResponseWriter req.
Proof.
  intros H1 H2 Hcan. unfold ServeHTTP. cbv zeta. simpl.
  change (Del (reqHeader req) "Accept-Encoding")
    with (delete "Accept-Encoding" (reqHeader req)).
  fold (outbound req).
  destruct (transport h (outbound req)) as [resp|err] eqn:Ht; [|done].
  by rewrite (copyAndReplaceHeader_order r1 r2 _ _ _ H1 H2 (Hcan resp eq_refl)).
Qed.

(** an iteration in the opposite order *)
Lemma visits_all_reverse : visits_all (λ m, reverse (map_to_list m)).
Proof. intros m. apply reverse_Permutation. Qed.

Lemma ServeHTTP_iteration_order_witness :
  (visits_all map_to_list ∧ visits_all (λ m, reverse (map_to_list m)) ∧
   ∀ resp, transport (upstream redirect) (outbound (get "1-ff00_0_110-192.0.2.1")) = inl resp →
           canonical_keys (respHeader resp)) ∧
  ServeHTTP map_to_list (upstream redirect) newResponseWriter (get "1-ff00_0_110-192.0.2.1")
  = ServeHTTP (λ m, reverse (map_to_list m)) (upstream redirect) newResponseWriter
      (get "1-ff00_0_110-192.0.2.1").
Proof.
  assert (∀ resp, transport (upstream redirect) (outbound (get "1-ff00_0_110-192.0.2.1"))
                  = inl resp → canonical_keys (respHeader resp)) as Hcan.
  { intros resp [= <-]. apply canonical_keys_redirect. }
  split; [split; [apply visits_all_map_to_list | split; [apply visits_all_reverse | exact Hcan]]|].
  exact (ServeHTTP_iteration_order _ _ _ _ visits_all_map_to_list visits_all_reverse Hcan).
Defined.




(** ** webapp/lib/config.go: [StringInSlice] *)

(** X14.  [StringInSlice] answers true exactly when the string is an
    element of the slice, once or several times. *)
Theorem StringInSlice_elem_of (arr : list string) (i : string) :
  lib.StringInSlice arr i = true ↔ i ∈ arr.
Proof.
  induction arr as [|v arr IH]; simpl.
  - split; [done | by intros ?%elem_of_nil].
  - rewrite elem_of_cons. destruct (String.eqb_spec v i) as [->|Hne].
    + split; auto.
    + rewrite IH. split; [auto | by intros [?|?]; [congruence|]].
Qed.

(** ** webapp/lib/config.go: the order of [byPrefInterface] *)

Section InterfaceOrder.

Implicit Types (a b c : net.Interface) (s t u : string).

Lemma compare_refl s : (s ?= s)%string = Eq.
Proof.
  pose proof (String.compare_antisym s s) as H.
  by destruct (s ?= s)%string.
Qed.

Lemma string_lt_le s t : sort.string_lt s t = true ↔ String.le s t ∧ s ≠ t.
Proof.
  unfold sort.string_lt, String.ltb, String.le, String.leb. split.
  - destruct (s ?= t)%string eqn:Hc; try done. intros _. split; [done|].
    intros ->. by rewrite compare_refl in Hc.
  - intros [Hle Hne]. destruct (s ?= t)%string eqn:Hc; try done.
    by apply String.compare_eq_iff in Hc.
Qed.

Lemma string_lt_irrefl s : sort.string_lt s s = false.
Proof. unfold sort.string_lt, String.ltb. by rewrite compare_refl. Qed.

Lemma string_lt_trans s t u :
  sort.string_lt s t = true → sort.string_lt t u = true → sort.string_lt s u = true.
Proof.
  rewrite !string_lt_le. intros [H1 N1] [H2 N2]. split.
  - by etrans.
  - intros ->. apply N1. by apply (anti_symm String.le).
Qed.

Lemma string_lt_total s t :
  s ≠ t → sort.string_lt s t = true ∨ sort.string_lt t s = true.
Proof.
  intros Hne. rewrite !string_lt_le.
  destruct (total String.le s t); [left | right]; split; auto.
Qed.

Lemma string_lt_asym s t : sort.string_lt s t = true → sort.string_lt t s = false.
Proof.
  intros H. destruct (sort.string_lt t s) eqn:H'; [|done].
  pose proof (string_lt_trans _ _ _ H H') as Hc. by rewrite string_lt_irrefl in Hc.
Qed.

Lemma en_not_local a : lib.isInterfaceEn a = true → lib.isInterfaceLocal a = false.
Proof.
  unfold lib.isInterfaceEn, lib.isInterfaceLocal.
  destruct (net.Name a) as [|x s]; [done|]. simpl.
  destruct (Ascii.eqb_spec x "e") as [->|]; [done|done].
Qed.

(** [less] compares the classes first and the names within a class. *)
Lemma less_by_rank a b :
  lib.less a b =
  if rank a <? rank b then true
  else if rank b <? rank a then false
  else sort.string_lt (net.Name a) (net.Name b).
Proof.
  unfold lib.less, rank.
  destruct (lib.isInterfaceEn a) eqn:Ea, (lib.isInterfaceEn b) eqn:Eb;
    rewrite ?(en_not_local a Ea), ?(en_not_local b Eb); simpl; try done;
    by destruct (lib.isInterfaceLocal a), (lib.isInterfaceLocal b).
Qed.

End InterfaceOrder.

(** X15.  The comparison of [Less] is a strict order: no interface is
    before itself, two interfaces are never each before the other, and
    the comparison is transitive, as [sort.Sort] requires. *)
Theorem less_strict_order :
  (∀ a, lib.less a a = false) ∧
  (∀ a b, lib.less a b = true → lib.less b a = false) ∧
  (∀ a b c, lib.less a b = true → lib.less b c = true → lib.less a c = true).
Proof.
  split; [|split].
  - intros a. rewrite less_by_rank, Nat.ltb_irrefl. apply string_lt_irrefl.
  - intros a b. rewrite !less_by_rank.
    destruct (Nat.ltb_spec (rank a) (rank b)), (Nat.ltb_spec (rank b) (rank a));
      try done; try lia. apply string_lt_asym.
  - intros a b c. rewrite !less_by_rank.
    destruct (Nat.ltb_spec (rank a) (rank b)), (Nat.ltb_spec (rank b) (rank a)),
      (Nat.ltb_spec (rank b) (rank c)), (Nat.ltb_spec (rank c) (rank b)),
      (Nat.ltb_spec (rank a) (rank c)), (Nat.ltb_spec (rank c) (rank a));
      try done; try lia. apply string_lt_trans.
Qed.

(** X16.  Two interfaces are left unordered by [Less], neither before the
    other, exactly when they have the same name. *)
Theorem less_ties (a b : net.Interface) :
  (lib.less a b = false ∧ lib.less b a = false) ↔ net.Name a = net.Name b.
Proof.
  rewrite !less_by_rank. split.
  - destruct (Nat.ltb_spec (rank a) (rank b)), (Nat.ltb_spec (rank b) (rank a));
      try (by intros [? ?]); try lia.
    intros [H1 H2]. destruct (decide (net.Name a = net.Name b)) as [|Hne]; [done|].
    destruct (string_lt_total _ _ Hne); congruence.
  - intros Heq. unfold rank, lib.isInterfaceEn, lib.isInterfaceLocal.
    rewrite Heq, !Nat.ltb_irrefl. by rewrite string_lt_irrefl.
Qed.

(** X17.  An interface whose name starts with en is before every
    interface whose name does not; an interface whose name starts with lo
    is before every interface whose name starts with neither. *)
Theorem less_preference (a b : net.Interface) :
  (lib.isInterfaceEn a = true → lib.isInterfaceEn b = false → lib.less a b = true) ∧
  (lib.isInterfaceLocal a = true → lib.isInterfaceEn b = false →
   lib.isInterfaceLocal b = false → lib.less a b = true).
Proof.
  split.
  - intros Ha Hb. unfold lib.less. by rewrite Ha, Hb.
  - intros Ha Hb Hlb. unfold lib.less. rewrite Ha, Hb, Hlb.
    destruct (lib.isInterfaceEn a); done.
Qed.

Lemma exchange_involutive i j k : exchange i j (exchange i j k) = k.
Proof. unfold exchange. repeat case_decide; congruence. Qed.

Lemma exchange_inj i j : Inj (=) (=) (exchange i j).
Proof.
  intros k1 k2 H. rewrite <- (exchange_involutive i j k1), H.
  apply exchange_involutive.
Qed.

Lemma lookup_Swap (c c' : lib.byPrefInterface) i j :
  lib.Swap c i j = Some c' → ∀ k, c' !! k = c !! exchange i j k.
Proof.
  unfold lib.Swap, lib.byPrefInterface in *. intros H k.
  destruct (c !! i) as [ci|] eqn:Hi; [|done].
  destruct (c !! j) as [cj|] eqn:Hj; [|done].
  simpl in H. injection H as <-.
  apply lookup_lt_Some in Hi as Hli. apply lookup_lt_Some in Hj as Hlj.
  unfold exchange. destruct (decide (k = i)) as [->|Hki].
  - destruct (decide (i = j)) as [->|Hij].
    + rewrite list_lookup_insert_eq by (by rewrite length_insert). congruence.
    + rewrite list_lookup_insert_ne by done.
      by rewrite list_lookup_insert_eq, Hj by done.
  - destruct (decide (k = j)) as [->|Hkj].
    + by rewrite list_lookup_insert_eq, Hi by (by rewrite length_insert).
    + by rewrite !list_lookup_insert_ne by done.
Qed.

(** X18.  [Swap] with both indices in range exchanges the two elements
    and nothing else: the slice keeps its length and its elements, every
    other position keeps its element, and a second [Swap] of the same
    indices restores the slice.  With an index out of range it panics. *)
Theorem Swap_exchanges (c : lib.byPrefInterface) (i j : nat) :
  match lib.Swap c i j with
  | Some c' =>
      i < lib.Len c ∧ j < lib.Len c ∧
      lib.Len c' = lib.Len c ∧ c' ≡ₚ c ∧
      (∀ k, c' !! k = c !! exchange i j k) ∧
      lib.Swap c' i j = Some c
  | None => ¬ (i < lib.Len c ∧ j < lib.Len c)
  end.
Proof.
  unfold lib.byPrefInterface in *.
  destruct (c !! i) as [ci|] eqn:Hi; [destruct (c !! j) as [cj|] eqn:Hj|].
  - assert (lib.Swap c i j = Some (<[j:=ci]> (<[i:=cj]> c))) as Hs.
    { unfold lib.Swap, lib.byPrefInterface. by rewrite Hi, Hj. }
    rewrite Hs. pose proof (lookup_Swap c _ i j Hs) as Hk.
    apply lookup_lt_Some in Hi as Hli. apply lookup_lt_Some in Hj as Hlj.
    unfold lib.Len. rewrite !length_insert. repeat split; try done.
    + apply Permutation_inj. rewrite !length_insert. split; [done|].
      exists (exchange i j). split; [apply exchange_inj | done].
    + unfold lib.Swap, lib.byPrefInterface.
      assert (<[j:=ci]> (<[i:=cj]> c) !! i = Some cj) as ->.
      { rewrite Hk. unfold exchange. by rewrite decide_True. }
      assert (<[j:=ci]> (<[i:=cj]> c) !! j = Some ci) as ->.
      { rewrite Hk. unfold exchange. case_decide; [by subst | by rewrite decide_True]. }
      simpl. f_equal. apply list_eq. intros k.
      destruct (decide (k = j)) as [->|Hkj]; [|destruct (decide (k = i)) as [->|Hki]].
      * by rewrite list_lookup_insert_eq by (by rewrite !length_insert).
      * rewrite list_lookup_insert_ne by done.
        by rewrite list_lookup_insert_eq by (by rewrite !length_insert).
      * rewrite !list_lookup_insert_ne by done. done.
  - unfold lib.Swap, lib.Len, lib.byPrefInterface. rewrite Hi, Hj. simpl. intros [_ Hlj].
    apply lookup_ge_None in Hj. lia.
  - unfold lib.Swap, lib.Len, lib.byPrefInterface. rewrite Hi. simpl. intros [Hli _].
    apply lookup_ge_None in Hi. lia.
Qed.

(** ** webapp/lib/config.go: [GenServerNodeDefaults] *)

#[local] Instance descending_trans : Transitive sort.descending.
Proof. intros a b c H1 H2. unfold sort.descending in *. by etrans. Qed.

#[local] Instance descending_antisym : AntiSymm (=) sort.descending.
Proof. intros a b H1 H2. unfold sort.descending in *. by apply (anti_symm String.le). Qed.

#[local] Instance descending_total : Total sort.descending.
Proof. intros a b. unfold sort.descending. apply (total String.le). Qed.

Lemma SortReverseStrings_Permutation l1 l2 :
  l1 ≡ₚ l2 → sort.SortReverseStrings l1 = sort.SortReverseStrings l2.
Proof.
  intros Hp. unfold sort.SortReverseStrings.
  apply (Sorted_unique sort.descending); try apply Sorted_merge_sort; try apply _.
  by rewrite !merge_sort_Permutation.
Qed.

Lemma serverNodes_loop_join localIAs i rest jsonBuf :
  i + length rest = length localIAs →
  lib.serverNodes_loop localIAs i rest jsonBuf =
  jsonBuf +:+ join (lib.raw ",") (lib.serverNode <$> rest).
Proof.
  revert i jsonBuf. induction rest as [|x rest IH]; intros i jsonBuf Hlen.
  - simpl. by rewrite app_nil_r.
  - cbn [lib.serverNodes_loop]. simpl in Hlen. rewrite IH by lia.
    destruct rest as [|y rest].
    + simpl in Hlen. rewrite (proj2 (Z.ltb_ge _ _)) by lia. simpl.
      by rewrite app_nil_r.
    + simpl in Hlen. rewrite (proj2 (Z.ltb_lt _ _)) by lia.
      change (join (lib.raw ",") (lib.serverNode <$> x :: y :: rest))
        with (lib.serverNode x +:+ lib.raw "," +:+
              join (lib.raw ",") (lib.serverNode <$> y :: rest)).
      by rewrite !app_assoc.
Qed.

(** X19.  The file that [GenServerNodeDefaults] writes holds one JSON
    object for each local IA, in descending order of the IAs, with a comma
    between two objects and none before the first or after the last; for
    no IA at all the list is empty. *)
Theorem GenServerNodeDefaults_json (Join : string → string → string)
    (options : lib.CmdOptions) (localIAs : list string) :
  lib.GenServerNodeDefaults Join options localIAs =
  (sort.SortReverseStrings localIAs,
   [lib.WriteFile (Join (lib.StaticRoot options) "config/servers_user.json")
      (lib.raw "{ 'all': ["
         +:+ join (lib.raw ",") (lib.serverNode <$> sort.SortReverseStrings localIAs)
         +:+ lib.raw "] }")
      420]).
Proof.
  unfold lib.GenServerNodeDefaults. cbv zeta.
  by rewrite serverNodes_loop_join, app_assoc.
Qed.

(** X20.  What [GenServerNodeDefaults] writes, and the slice it leaves,
    do not depend on the order in which the local IAs are given. *)
Theorem GenServerNodeDefaults_order (Join : string → string → string)
    (options : lib.CmdOptions) (l1 l2 : list string) :
  l1 ≡ₚ l2 →
  lib.GenServerNodeDefaults Join options l1 = lib.GenServerNodeDefaults Join options l2.
Proof.
  intros Hp. unfold lib.GenServerNodeDefaults. cbv zeta.
  by rewrite (SortReverseStrings_Permutation l1 l2 Hp).
Qed.

Lemma GenServerNodeDefaults_order_witness :
  ["1-ff00_0_110"; "2-ff00_0_220"] ≡ₚ ["2-ff00_0_220"; "1-ff00_0_110"] ∧
  lib.GenServerNodeDefaults (λ a b, a +:+ "/" +:+ b) sample_options
    ["1-ff00_0_110"; "2-ff00_0_220"]
  = lib.GenServerNodeDefaults (λ a b, a +:+ "/" +:+ b) sample_options
    ["2-ff00_0_220"; "1-ff00_0_110"].
Proof.
  assert (["1-ff00_0_110"; "2-ff00_0_220"] ≡ₚ ["2-ff00_0_220"; "1-ff00_0_110"]) as Hp
    by apply perm_swap.
  split; [exact Hp|].
  exact (GenServerNodeDefaults_order _ sample_options _ _ Hp).
Defined.

(** X21.  [GenServerNodeDefaults] reorders the slice of its caller: after
    the call it holds the same strings in descending order, and this
    determines it. *)
Theorem GenServerNodeDefaults_sorts (Join : string → string → string)
    (options : lib.CmdOptions) (localIAs : list string) :
  let after := (lib.GenServerNodeDefaults Join options localIAs).1 in
  after ≡ₚ localIAs ∧
  (∀ i j a b, i < j → after !! i = Some a → after !! j = Some b →
              sort.string_lt a b = false) ∧
  (∀ l, l ≡ₚ localIAs → Sorted sort.descending l → l = after).
Proof.
  cbv zeta. unfold lib.GenServerNodeDefaults. cbv zeta. simpl.
  unfold sort.SortReverseStrings. split; [apply merge_sort_Permutation|]. split.
  - intros i j a b Hij Hi Hj.
    pose proof (StronglySorted_merge_sort sort.descending localIAs) as Hs.
    rewrite <- (take_drop_middle _ _ _ Hi) in Hs.
    apply StronglySorted_app_1_r, StronglySorted_cons in Hs as [Hall _].
    rewrite Forall_forall in Hall.
    assert (b ∈ drop (S i) (merge_sort sort.descending localIAs)) as Hb.
    { apply (list_elem_of_lookup_2 _ (j - S i)). rewrite lookup_drop.
      by replace (S i + (j - S i)) with j by lia. }
    specialize (Hall b Hb). unfold sort.descending in Hall.
    destruct (sort.string_lt a b) eqn:Hlt; [|done].
    apply string_lt_le in Hlt as [Hle Hne]. destruct Hne.
    by apply (anti_symm String.le).
  - intros l Hp Hs. apply (Sorted_unique sort.descending); try done.
    + apply Sorted_merge_sort. apply _.
    + by rewrite merge_sort_Permutation.
Qed.
